(** * Candy Peaks: the rules engine of the Tri-Peaks prototype

    A shallow embedding of [game.ts] (deck, seeded generator, layout graph,
    dealer, exposure, rank adjacency) and of the state transitions of
    [App.tsx] (clear, draw, hold, wrap toggle, powerup selection, terminal
    evaluation), followed by the properties of the engine.

    Conventions.
    - JavaScript numbers that only ever hold integers (ranks, scores, combo
      counters, 32-bit generator words) are [Z]; array indices and slot ids
      are [nat].  The two places where the source computes with fractions
      (the generator's output in [0,1) and the combo multiplier) are exact in
      IEEE doubles for every value the game produces and are modelled in [Q].
    - 32-bit words are kept as their unsigned representative in [0, 2^32):
      [ToInt32] and [ToUint32] pick different representatives of the same
      residue, and every operator used by the generator (xor, or, shifts,
      [Math.imul], addition followed by xor) only depends on that residue.
    - A JavaScript string is the list of its UTF-16 code units.
    - Piles are arrays whose last element is the top, as in the source. *)

From Stdlib Require Import QArith Qround Qminmax.
From stdpp Require Import base tactics option list numbers strings pretty gmap.

Local Open Scope Z_scope.

(** ** Data model (game.ts, lines 1-34) *)

(** The suit letters live in a module of their own: ['S'] would otherwise
    shadow the successor of [nat]. *)
Module Suit.
Inductive t := H | D | C | S.
End Suit.

Record Card := mkCard {
  card_id : string;
  rank : Z;
  suit : Suit.t;
}.

Record Slot := mkSlot {
  slot_id : nat;
  slot_row : Z;
  slot_x : Z;
  slot_card : option Card;
}.

Inductive Powerup := wild | bomb | rainbow.

Record Inventory := mkInventory {
  inv_wild : Z;
  inv_bomb : Z;
  inv_rainbow : Z;
}.

Inductive GameStatus := playing | won | lost.

(** A JavaScript string, as the sequence of its code units. *)
Abbreviation jsstring := (list Z).

Definition js (s : string) : jsstring :=
  (λ a, Z.of_nat (Ascii.nat_of_ascii a)) <$> String.list_ascii_of_string s.

Record GameState := mkGameState {
  seed : jsstring;
  tableau : list Slot;
  stock : list Card;
  waste : list Card;
  hold : option Card;
  score : Z;
  combo : Z;
  powerups : Inventory;
  activePowerup : option Powerup;
  powerupCycle : Z;
  wrapEnabled : bool;
  status : GameStatus;
  bonusAwarded : bool;
}.

Global Instance Suit_eq_dec : EqDecision Suit.t.
Proof. solve_decision. Defined.
Global Instance Card_eq_dec : EqDecision Card.
Proof. solve_decision. Defined.
Global Instance Slot_eq_dec : EqDecision Slot.
Proof. solve_decision. Defined.
Global Instance Powerup_eq_dec : EqDecision Powerup.
Proof. solve_decision. Defined.
Global Instance GameStatus_eq_dec : EqDecision GameStatus.
Proof. solve_decision. Defined.

(** Record access [inventory[powerup]] and update. *)
Definition inv_get (i : Inventory) (p : Powerup) : Z :=
  match p with
  | wild => inv_wild i
  | bomb => inv_bomb i
  | rainbow => inv_rainbow i
  end.

Definition inv_set (i : Inventory) (p : Powerup) (v : Z) : Inventory :=
  match p with
  | wild => mkInventory v (inv_bomb i) (inv_rainbow i)
  | bomb => mkInventory (inv_wild i) v (inv_rainbow i)
  | rainbow => mkInventory (inv_wild i) (inv_bomb i) v
  end.

(** ** Constants (game.ts, lines 36-49) *)

Definition ROWS : list (Z * list Z) :=
  [ (0, [4; 10; 16]);
    (1, [3; 5; 9; 11; 15; 17]);
    (2, [2; 4; 6; 8; 10; 12; 14; 16; 18]);
    (3, [1; 3; 5; 7; 9; 11; 13; 15; 17; 19]) ].

Definition POWERUP_ORDER : list Powerup := [wild; bomb; rainbow].
Definition BASE_POINTS : Z := 100.
Definition STOCK_BONUS : Z := 200.

(** ** Layout graph (game.ts, lines 115-171) *)

(** [buildLayout]: one slot per entry of [ROWS], ids dense in row order. *)
Definition buildLayout : list Slot :=
  foldl (λ slots r,
           foldl (λ slots x, slots ++ [mkSlot (length slots) r.1 x None])
                 slots r.2)
        [] ROWS.

(** The key [`${row}:${x}`] of the position lookup table. *)
Definition posKey (row x : Z) : string := pretty row +:+ ":" +:+ pretty x.

Definition buildLookup (layout : list Slot) : gmap string nat :=
  foldl (λ lookup slot, <[posKey (slot_row slot) (slot_x slot) := slot_id slot]> lookup)
        ∅ layout.

(** [parents[id].push(v)]; ids absent from the record are left alone (the
    source only pushes to ids it has just initialised). *)
Definition pushTo (id v : nat) (parents : gmap nat (list nat)) : gmap nat (list nat) :=
  match parents !! id with
  | Some l => <[id := l ++ [v]]> parents
  | None => parents
  end.

Definition buildParents (layout : list Slot) : gmap nat (list nat) :=
  let lookup := buildLookup layout in
  let parents := foldl (λ parents slot, <[slot_id slot := []]> parents) ∅ layout in
  foldl (λ parents slot,
           let childRow := slot_row slot + 1 in
           let leftId := lookup !! posKey childRow (slot_x slot - 1) in
           let rightId := lookup !! posKey childRow (slot_x slot + 1) in
           let parents := match leftId with
                          | Some l => pushTo l (slot_id slot) parents
                          | None => parents
                          end in
           match rightId with
           | Some r => pushTo r (slot_id slot) parents
           | None => parents
           end)
        parents layout.

(** [neighbors.add(v)] on an insertion-ordered [Set]. *)
Definition setAdd (v : nat) (s : list nat) : list nat :=
  if decide (v ∈ s) then s else s ++ [v].

Definition buildAdjacency (layout : list Slot) (parents : gmap nat (list nat))
  : gmap nat (list nat) :=
  let lookup := buildLookup layout in
  foldl (λ adjacency slot,
           let neighbors := foldl (λ s p, setAdd p s) [] (default [] (parents !! slot_id slot)) in
           let childRow := slot_row slot + 1 in
           let leftId := lookup !! posKey childRow (slot_x slot - 1) in
           let rightId := lookup !! posKey childRow (slot_x slot + 1) in
           let neighbors := match leftId with Some l => setAdd l neighbors | None => neighbors end in
           let neighbors := match rightId with Some r => setAdd r neighbors | None => neighbors end in
           <[slot_id slot := neighbors]> adjacency)
        ∅ layout.

Definition LAYOUT : list Slot := buildLayout.
Definition PARENTS : gmap nat (list nat) := buildParents LAYOUT.
Definition ADJACENCY : gmap nat (list nat) := buildAdjacency LAYOUT PARENTS.

(** [PARENTS[id]] and [ADJACENCY[id]].  An id outside the layout has no entry;
    the source would fail iterating [undefined], and no tableau it builds
    carries such an id.  The model reads a missing entry as the empty list. *)
Definition parentsOf (id : nat) : list nat := default [] (PARENTS !! id).
Definition adjacentTo (id : nat) : list nat := default [] (ADJACENCY !! id).

(** ** Deck (game.ts, lines 173-182) *)

Definition suitLetter (s : Suit.t) : string :=
  match s with
  | Suit.H => "H" | Suit.D => "D" | Suit.C => "C" | Suit.S => "S"
  end.

Definition createDeck : list Card :=
  s ← [Suit.H; Suit.D; Suit.C; Suit.S];
  r ← seqZ 1 13;
  [mkCard (suitLetter s +:+ pretty r) r s].

(** ** 32-bit words *)

Definition u32 (z : Z) : Z := z `mod` 2 ^ 32.
(** [Math.imul(a, b)] *)
Definition imul (a b : Z) : Z := u32 (a * b).
(** [a ^ b], [a | b], [a << n], [a >>> n] *)
Definition xor32 (a b : Z) : Z := Z.lxor (u32 a) (u32 b).
Definition or32 (a b : Z) : Z := Z.lor (u32 a) (u32 b).
Definition shl32 (a n : Z) : Z := u32 (Z.shiftl (u32 a) n).
Definition ushr32 (a n : Z) : Z := Z.shiftr (u32 a) n.

(** ** The closures of the generator

    [xmur3] and [mulberry32] return closures over one mutable variable each
    ([h] and [a]).  A closure is a reference into a store of such variables;
    calling it reads and writes its own cell. *)

Abbreviation Heap := (list Z).
Definition M (A : Type) : Type := Heap → A * Heap.

Definition ret {A} (a : A) : M A := λ h, (a, h).
Definition bind {A B} (m : M A) (k : A → M B) : M B :=
  λ h, let '(a, h') := m h in k a h'.
Definition alloc (v : Z) : M nat := λ h, (length h, h ++ [v]).
Definition load (r : nat) : M Z := λ h, (default 0 (h !! r), h).
Definition store (r : nat) (v : Z) : M unit := λ h, (tt, <[r := v]> h).

Notation "'let*' x := m 'in' k" := (bind m (λ x, k))
  (at level 10, x name, m at level 100, k at level 200).

(** [xmur3(str)] (game.ts, lines 190-202): the hashing loop, then the
    closure over [h]. *)
Definition xmur3_hash (str : jsstring) : Z :=
  foldl (λ h c,
           let h := imul (xor32 h c) 3432918353 in
           or32 (shl32 h 13) (ushr32 h 19))
        (xor32 1779033703 (Z.of_nat (length str))) str.

Definition xmur3 (str : jsstring) : M nat := alloc (xmur3_hash str).

Definition xmur3_mix (h : Z) : Z :=
  let h := imul (xor32 h (ushr32 h 16)) 2246822507 in
  let h := imul (xor32 h (ushr32 h 13)) 3266489909 in
  xor32 h (ushr32 h 16).

Definition xmur3_call (seedFn : nat) : M Z :=
  let* h := load seedFn in
  let h := xmur3_mix h in
  let* _ := store seedFn h in
  ret (ushr32 h 0).

(** [mulberry32(a)] (game.ts, lines 204-211).  The source adds the increment
    to [a] without truncating it, so [a] grows as a plain number; it stays an
    exact integer for far more draws than a deal makes. *)
Definition mulberry32 (a : Z) : M nat := alloc a.

Definition mulberry32_out (a : Z) : Z :=
  let t := a in
  let t := imul (xor32 t (ushr32 t 15)) (or32 t 1) in
  let t := xor32 t (t + imul (xor32 t (ushr32 t 7)) (or32 t 61)) in
  ushr32 (xor32 t (ushr32 t 14)) 0.

Definition mulberry32_call (rng : nat) : M Q :=
  let* a := load rng in
  let a := a + 0x6d2b79f5 in
  let* _ := store rng a in
  ret (mulberry32_out a # 4294967296).

(** [createRng] (game.ts, lines 184-188) *)
Definition createRng (seed : jsstring) : M nat :=
  let* seedFn := xmur3 seed in
  let* state := xmur3_call seedFn in
  mulberry32 state.

(** ** Shuffle (game.ts, lines 213-220) *)

(** [tmp = deck[i]; deck[i] = deck[j]; deck[j] = tmp] for indices inside
    the array (the loop never leaves it, see [shuffle_index_bound]). *)
Definition swap (deck : list Card) (i j : nat) : list Card :=
  match deck !! i, deck !! j with
  | Some tmp, Some dj => <[j := tmp]> (<[i := dj]> deck)
  | _, _ => deck
  end.

(** [Math.floor(r * (i + 1))] *)
Definition pick (r : Q) (i : nat) : nat :=
  Z.to_nat (Qfloor (r * inject_Z (Z.of_nat i + 1))).

Fixpoint shuffle_from (i : nat) (deck : list Card) (rng : nat) : M (list Card) :=
  match i with
  | O => ret deck
  | S i' =>
      let* r := mulberry32_call rng in
      let j := pick r i in
      shuffle_from i' (swap deck i j) rng
  end.

Definition shuffle (deck : list Card) (rng : nat) : M (list Card) :=
  shuffle_from (length deck - 1) deck rng.

(** ** Deal (game.ts, lines 51-82) *)

Definition createGameState (seed : jsstring) : M GameState :=
  let deck := createDeck in
  let* rng := createRng seed in
  let* deck := shuffle deck rng in
  let tableau :=
    imap (λ index pos, mkSlot (slot_id pos) (slot_row pos) (slot_x pos) (deck !! index))
         LAYOUT in
  let stock := drop (length tableau) deck in
  let '(stock, waste) :=
    match last stock with
    | Some top => (removelast stock, [top])
    | None => (stock, [])
    end in
  ret {| seed := seed; tableau := tableau; stock := stock; waste := waste;
         hold := None; score := 0; combo := 0;
         powerups := mkInventory 0 0 0; activePowerup := None;
         powerupCycle := 0; wrapEnabled := true; status := playing;
         bonusAwarded := false |}.

(** ** Rank adjacency and exposure (game.ts, lines 84-105) *)

Definition isAdjacentRank (a b : Z) (wrapEnabled : bool) : bool :=
  if Z.abs (a - b) =? 1 then true
  else if negb wrapEnabled then false
  else (a =? 1) && (b =? 13) || (a =? 13) && (b =? 1).

(** [tableau[i]?.card] *)
Definition cardAt (tableau : list Slot) (i : nat) : option Card :=
  tableau !! i ≫= slot_card.

Definition isExposed (slot : Slot) (tableau : list Slot) : bool :=
  match slot_card slot with
  | None => false
  | Some _ => forallb (λ parentId, negb (bool_decide (is_Some (cardAt tableau parentId))))
                      (parentsOf (slot_id slot))
  end.

Definition getExposedIds (tableau : list Slot) : list nat :=
  slot_id <$> filter (λ slot, isExposed slot tableau = true) tableau.

(** ** Scoring and powerup grants (App.tsx, lines 552-574) *)

(** [Math.round]: the nearest integer, halves upwards. *)
Definition round (q : Q) : Z := Qfloor (q + (1 # 2)).

Definition getComboMultiplier (combo : Z) : Q :=
  if combo <=? 0 then 1%Q
  else
    let steps := combo / 3 in
    (1 + Qmin (inject_Z steps * (1 # 2)) 2)%Q.

(** One round of the loop body of [grantPowerups]. *)
Definition grantStep (acc : Inventory * Z) (combo : Z) : Inventory * Z :=
  let '(nextInventory, nextCycle) := acc in
  if Z.rem combo 3 =? 0 then
    let idx := Z.rem nextCycle (Z.of_nat (length POWERUP_ORDER)) in
    let powerup := if idx <? 0 then None else POWERUP_ORDER !! Z.to_nat idx in
    match powerup with
    | Some p => (inv_set nextInventory p (inv_get nextInventory p + 1), nextCycle + 1)
    | None => (nextInventory, nextCycle + 1)
    end
  else acc.

(** [for (combo = oldCombo + 1; combo <= newCombo; combo += 1)] *)
Definition grantPowerups (oldCombo newCombo : Z) (inventory : Inventory) (cycleIndex : Z)
  : Inventory * Z :=
  foldl grantStep (inventory, cycleIndex) (seqZ (oldCombo + 1) (newCombo - oldCombo)).

(** ** Field updates ([{ ...state, field: value }]) *)

Definition with_status (st : GameStatus) (s : GameState) : GameState :=
  {| seed := seed s; tableau := tableau s; stock := stock s; waste := waste s;
     hold := hold s; score := score s; combo := combo s; powerups := powerups s;
     activePowerup := activePowerup s; powerupCycle := powerupCycle s;
     wrapEnabled := wrapEnabled s; status := st; bonusAwarded := bonusAwarded s |}.

Definition with_bonus (sc : Z) (s : GameState) : GameState :=
  {| seed := seed s; tableau := tableau s; stock := stock s; waste := waste s;
     hold := hold s; score := sc; combo := combo s; powerups := powerups s;
     activePowerup := activePowerup s; powerupCycle := powerupCycle s;
     wrapEnabled := wrapEnabled s; status := won; bonusAwarded := true |}.

Definition with_wrapEnabled (b : bool) (s : GameState) : GameState :=
  {| seed := seed s; tableau := tableau s; stock := stock s; waste := waste s;
     hold := hold s; score := score s; combo := combo s; powerups := powerups s;
     activePowerup := activePowerup s; powerupCycle := powerupCycle s;
     wrapEnabled := b; status := status s; bonusAwarded := bonusAwarded s |}.

Definition with_activePowerup (a : option Powerup) (s : GameState) : GameState :=
  {| seed := seed s; tableau := tableau s; stock := stock s; waste := waste s;
     hold := hold s; score := score s; combo := combo s; powerups := powerups s;
     activePowerup := a; powerupCycle := powerupCycle s;
     wrapEnabled := wrapEnabled s; status := status s; bonusAwarded := bonusAwarded s |}.

(** ** Terminal conditions (App.tsx, lines 576-616) *)

Definition tableauCleared (tableau : list Slot) : bool :=
  forallb (λ slot, negb (bool_decide (is_Some (slot_card slot)))) tableau.

Definition evaluateState (state : GameState) : GameState :=
  if negb (bool_decide (status state = playing)) then state
  else if tableauCleared (tableau state) then
    if negb (bonusAwarded state) then
      with_bonus (score state + Z.of_nat (length (stock state)) * STOCK_BONUS) state
    else with_status won state
  else if bool_decide (length (stock state) = 0%nat) then
    let exposedIds := getExposedIds (tableau state) in
    if bool_decide (length exposedIds = 0%nat) then with_status lost state
    else
      let wasteTop := last (waste state) in
      let hasPowerup :=
        bool_decide (activePowerup state ≠ None)
        || (inv_wild (powerups state) + inv_bomb (powerups state)
            + inv_rainbow (powerups state) >? 0) in
      let canPlay :=
        match wasteTop with
        | Some top =>
            existsb (λ id,
                       match cardAt (tableau state) id with
                       | Some card => isAdjacentRank (rank card) (rank top) (wrapEnabled state)
                       | None => false
                       end)
                    exposedIds
        | None => false
        end in
      if negb hasPowerup && negb canPlay then with_status lost state
      else state
  else state.

(** ** Clearing cards (App.tsx, lines 125-211) *)

Record ClearResult := mkClearResult {
  state : GameState;
  clearedCount : Z;
}.

Definition clearSlot (slot : Slot) : Slot :=
  mkSlot (slot_id slot) (slot_row slot) (slot_x slot) None.

Definition applyClear (prev : GameState) (clearedIds : list nat)
    (wasteCard : option Card) (powerupSpent : option Powerup) : ClearResult :=
  match wasteCard with
  | None => mkClearResult prev 0
  | Some wasteCard =>
      let nextTableau :=
        (λ slot, if decide (slot_id slot ∈ clearedIds) then clearSlot slot else slot)
          <$> tableau prev in
      let clearedCount := Z.of_nat (length clearedIds) in
      let nextCombo := combo prev + clearedCount in
      let scoreMultiplier := getComboMultiplier nextCombo in
      let scoreGain :=
        round (inject_Z clearedCount * inject_Z BASE_POINTS * scoreMultiplier) in
      let nextPowerups :=
        match powerupSpent with
        | Some p => inv_set (powerups prev) p (Z.max 0 (inv_get (powerups prev) p - 1))
        | None => powerups prev
        end in
      let '(inventory, nextCycle) :=
        grantPowerups (combo prev) nextCombo nextPowerups (powerupCycle prev) in
      mkClearResult
        {| seed := seed prev; tableau := nextTableau; stock := stock prev;
           waste := waste prev ++ [wasteCard]; hold := hold prev;
           score := score prev + scoreGain; combo := nextCombo;
           powerups := inventory; activePowerup := None;
           powerupCycle := nextCycle; wrapEnabled := wrapEnabled prev;
           status := status prev; bonusAwarded := bonusAwarded prev |}
        clearedCount
  end.

(** [Array.from(new Set(ids))]: duplicates dropped, first occurrences kept. *)
Definition dedupe (ids : list nat) : list nat := foldl (λ s v, setAdd v s) [] ids.

(** The ids a click on [slotId] clears under a powerup (lines 143-162). *)
Definition powerupClearSet (prev : GameState) (slotId : nat) (card : Card)
    (p : Powerup) : list nat :=
  let currentExposedIds := getExposedIds (tableau prev) in
  match p with
  | wild => [slotId]
  | bomb =>
      let neighbors := filter (λ id, id ∈ currentExposedIds) (adjacentTo slotId) in
      dedupe (slotId :: neighbors)
  | rainbow =>
      filter (λ id, rank <$> cardAt (tableau prev) id = Some (rank card)) currentExposedIds
  end.

(** The state updaters below are the functions handed to [setGame]; the
    history push of [commitState] happens on the side and is not part of the
    game state. *)
Definition handleCardClick (slotId : nat) (prev : GameState) : GameState :=
  if negb (bool_decide (status prev = playing)) then prev
  else
    match tableau prev !! slotId with
    | None => prev
    | Some slot =>
        match slot_card slot with
        | None => prev
        | Some card =>
            if negb (isExposed slot (tableau prev)) then prev
            else
              match activePowerup prev with
              | None =>
                  match last (waste prev) with
                  | None => prev
                  | Some currentWasteTop =>
                      if negb (isAdjacentRank (rank card) (rank currentWasteTop)
                                 (wrapEnabled prev))
                      then prev
                      else evaluateState (state (applyClear prev [slotId] (Some card) None))
                  end
              | Some p =>
                  if inv_get (powerups prev) p <=? 0 then prev
                  else evaluateState
                         (state (applyClear prev (powerupClearSet prev slotId card p)
                                   (Some card) (Some p)))
              end
        end
    end.

(** ** Draw, hold, toggles (App.tsx, lines 58-123) *)

Definition drawFromStock (prev : GameState) : GameState :=
  if negb (bool_decide (status prev = playing)) then prev
  else
    match last (stock prev) with
    | None => prev
    | Some drawn =>
        evaluateState
          {| seed := seed prev; tableau := tableau prev;
             stock := removelast (stock prev); waste := waste prev ++ [drawn];
             hold := hold prev; score := score prev; combo := 0;
             powerups := powerups prev; activePowerup := None;
             powerupCycle := powerupCycle prev; wrapEnabled := wrapEnabled prev;
             status := status prev; bonusAwarded := bonusAwarded prev |}
    end.

Definition useHold (prev : GameState) : GameState :=
  if negb (bool_decide (status prev = playing)) then prev
  else
    match last (waste prev) with
    | None => prev
    | Some wasteTop =>
        let nextWaste := removelast (waste prev) in
        let nextWaste :=
          match hold prev with
          | Some h => nextWaste ++ [h]
          | None => nextWaste
          end in
        evaluateState
          {| seed := seed prev; tableau := tableau prev; stock := stock prev;
             waste := nextWaste; hold := Some wasteTop; score := score prev;
             combo := 0; powerups := powerups prev; activePowerup := None;
             powerupCycle := powerupCycle prev; wrapEnabled := wrapEnabled prev;
             status := status prev; bonusAwarded := bonusAwarded prev |}
    end.

Definition toggleWrap (enabled : bool) (prev : GameState) : GameState :=
  if bool_decide (wrapEnabled prev = enabled) then prev
  else with_wrapEnabled enabled prev.

Definition togglePowerup (powerup : Powerup) (prev : GameState) : GameState :=
  if negb (bool_decide (status prev = playing)) then prev
  else if inv_get (powerups prev) powerup <=? 0 then prev
  else
    let nextActive :=
      if bool_decide (activePowerup prev = Some powerup) then None else Some powerup in
    with_activePowerup nextActive prev.

(** ** What the board offers (App.tsx, lines 42 and 528-539; game.ts, lines 107-113) *)

(** Whether the board enables the click on a card. *)
Definition isCardPlayable (exposed : bool) (card : Card) (wasteTop : option Card)
    (activePowerup : option Powerup) (wrapEnabled : bool) : bool :=
  if negb exposed then false
  else
    match activePowerup with
    | Some _ => true
    | None =>
        match wasteTop with
        | None => false
        | Some top => isAdjacentRank (rank card) (rank top) wrapEnabled
        end
    end.

(** [canHold]: whether the board enables the hold button. *)
Definition canHold (game : GameState) : bool :=
  bool_decide (status game = playing) && bool_decide (0 < length (waste game))%nat.

(** [String(rank)] is the decimal numeral of an integer rank. *)
Definition rankLabel (rank : Z) : string :=
  if rank =? 1 then "A"
  else if rank =? 11 then "J"
  else if rank =? 12 then "Q"
  else if rank =? 13 then "K"
  else pretty rank.

(** ** The transition system of a deal *)

Inductive Action :=
| Click (slotId : nat)
| Draw
| Hold
| ToggleWrap (enabled : bool)
| SelectPowerup (powerup : Powerup).

Definition step (a : Action) (s : GameState) : GameState :=
  match a with
  | Click slotId => handleCardClick slotId s
  | Draw => drawFromStock s
  | Hold => useHold s
  | ToggleWrap enabled => toggleWrap enabled s
  | SelectPowerup powerup => togglePowerup powerup s
  end.

(** [Deal]: the state of a fresh deal (the generator starts from its own,
    newly allocated cells). *)
Definition Deal (seed : jsstring) : GameState := (createGameState seed []).1.

Definition run (seed : jsstring) (actions : list Action) : GameState :=
  foldl (λ s a, step a s) (Deal seed) actions.

(** A state literal with a given tableau and piles and nothing else going
    on, for examples. *)
Definition sampleState (tableau : list Slot) (stock waste : list Card) : GameState :=
  {| seed := js "candy"; tableau := tableau; stock := stock; waste := waste;
     hold := None; score := 0; combo := 0; powerups := mkInventory 0 0 0;
     activePowerup := None; powerupCycle := 0; wrapEnabled := true;
     status := playing; bonusAwarded := false |}.

(** The states of a deal: the dealt state (whatever generator cells earlier
    deals left in the store) and what the transitions make of it. *)
Inductive reachable : GameState → Prop :=
| reachable_deal seed h : reachable (createGameState seed h).1
| reachable_step a s : reachable s → reachable (step a s).

(** The deck in the order the dealer hands it out: [createDeck] after the
    seeded shuffle. *)
Definition shuffledDeck (seed : jsstring) (h : Heap) : list Card :=
  (bind (createRng seed) (shuffle createDeck) h).1.

(** The cards a state holds, tableau first, then stock, waste and hold. *)
Definition tableauCards (tableau : list Slot) : list Card := omap slot_card tableau.

Definition cards (s : GameState) : list Card :=
  tableauCards (tableau s) ++ stock s ++ waste s ++ option_list (hold s).

(** * Properties *)

(** ** Rank adjacency *)

(** C8.  Two ranks are adjacent exactly when they differ by one, or when wrap
    is enabled and they are Ace and King; so Ace-King is adjacent iff wrap is
    on, 5-6 always, 5-7 never.  The statement holds for all integer ranks, in
    particular for those in [1,13]. *)
Theorem isAdjacentRank_spec (a b : Z) (wrap : bool) :
  (isAdjacentRank a b wrap = true ↔
     Z.abs (a - b) = 1 ∨ (wrap = true ∧ ((a = 1 ∧ b = 13) ∨ (a = 13 ∧ b = 1))))
  ∧ isAdjacentRank 1 13 wrap = wrap
  ∧ isAdjacentRank 13 1 wrap = wrap
  ∧ isAdjacentRank 5 6 wrap = true
  ∧ isAdjacentRank 5 7 wrap = false.
Proof.
  split; [|by destruct wrap].
  unfold isAdjacentRank.
  destruct (Z.eqb_spec (Z.abs (a - b)) 1) as [Hd|Hd]; [tauto|].
  destruct wrap; simpl.
  - rewrite orb_true_iff, !andb_true_iff, !Z.eqb_eq. tauto.
  - split; [done|]. intros [?|[? _]]; done.
Qed.

(** ** Terminal evaluation *)

Lemma evaluateState_not_playing (s : GameState) :
  status s ≠ playing → evaluateState s = s.
Proof.
  intros Hs. unfold evaluateState.
  by rewrite bool_decide_eq_false_2.
Qed.

(** Evaluation either leaves the state alone or ends the game. *)
Lemma evaluateState_cases (s : GameState) :
  evaluateState s = s ∨ status (evaluateState s) ≠ playing.
Proof.
  unfold evaluateState.
  repeat (case_match; simpl; auto).
Qed.

(** C9.  Evaluating twice is the same as evaluating once. *)
Theorem evaluateState_idempotent (s : GameState) :
  evaluateState (evaluateState s) = evaluateState s.
Proof.
  destruct (evaluateState_cases s) as [Heq|Hterm].
  - by rewrite !Heq.
  - by apply evaluateState_not_playing.
Qed.

(** ** Scoring *)

(** The multiplier by combo bands. *)
Definition multiplierTable (c : Z) : Q :=
  if c <? 3 then 1 else if c <? 6 then 3 # 2 else if c <? 9 then 2
  else if c <? 12 then 5 # 2 else 3.

Lemma getComboMultiplier_table (c : Z) :
  (getComboMultiplier c == multiplierTable c)%Q.
Proof.
  unfold getComboMultiplier, multiplierTable.
  pose proof (Z.div_mod c 3 ltac:(lia)) as Hdm.
  pose proof (Z.mod_pos_bound c 3 ltac:(lia)) as Hmb.
  destruct (Z.leb_spec c 0) as [Hc|Hc].
  { rewrite (proj2 (Z.ltb_lt c 3)) by lia. reflexivity. }
  destruct (Z.ltb_spec c 3).
  { replace (c / 3) with 0 by lia. reflexivity. }
  destruct (Z.ltb_spec c 6).
  { replace (c / 3) with 1 by lia. reflexivity. }
  destruct (Z.ltb_spec c 9).
  { replace (c / 3) with 2 by lia. reflexivity. }
  destruct (Z.ltb_spec c 12).
  { replace (c / 3) with 3 by lia. reflexivity. }
  rewrite Q.min_r; [reflexivity|].
  unfold Qle. simpl. lia.
Qed.

Lemma round_half_integer (n k : Z) :
  round (inject_Z n * inject_Z BASE_POINTS * (k # 2)) = n * 50 * k.
Proof.
  unfold round, BASE_POINTS.
  assert (inject_Z n * inject_Z 100 * (k # 2) + (1 # 2) ==
          inject_Z (n * 50 * k) + (1 # 2))%Q as ->.
  { unfold Qeq, Qplus, Qmult, inject_Z. simpl. lia. }
  unfold Qfloor, Qplus, inject_Z. simpl.
  change (Z.pos (1 * 2)) with 2.
  replace (n * 50 * k * 2 + 1 * 1) with (1 + n * 50 * k * 2) by lia.
  rewrite Z.div_add by lia. done.
Qed.

(** The combo and the score after a clear. *)
Lemma applyClear_combo_score (prev : GameState) (clearedIds : list nat) (card : Card)
    (spent : option Powerup) :
  let n := Z.of_nat (length clearedIds) in
  let next := state (applyClear prev clearedIds (Some card) spent) in
  combo next = combo prev + n
  ∧ score next
    = score prev + round (inject_Z n * inject_Z BASE_POINTS * getComboMultiplier (combo next)).
Proof.
  unfold applyClear. destruct (grantPowerups _ _ _ _). simpl. done.
Qed.

(** C6.  A clear of [n] cards that takes the combo to [c] adds
    [round (n * BASE_POINTS * multiplier c)] to the score, with
    [BASE_POINTS = 100] and [multiplier c = 1 + min (floor (c/3) * 0.5, 2)]
    for positive [c] and 1 otherwise.  The multiplier is 1, 1.5, 2, 2.5 or 3
    by bands of three combo points and never exceeds 3; the rounding is
    exact. *)
Theorem applyClear_score (prev : GameState) (clearedIds : list nat) (card : Card)
    (spent : option Powerup) (c : Z) :
  let n := Z.of_nat (length clearedIds) in
  let next := state (applyClear prev clearedIds (Some card) spent) in
  combo next = combo prev + n
  ∧ score next
    = score prev + round (inject_Z n * inject_Z BASE_POINTS * getComboMultiplier (combo next))
  ∧ BASE_POINTS = 100
  ∧ getComboMultiplier c
    = (if 0 <? c then (1 + Qmin (inject_Z (c / 3) * (1 # 2)) 2)%Q else 1%Q)
  ∧ (getComboMultiplier c == multiplierTable c)%Q
  ∧ (getComboMultiplier c <= 3)%Q
  ∧ score next - score prev
    = n * 50 * (if combo next <? 3 then 2 else if combo next <? 6 then 3
                else if combo next <? 9 then 4 else if combo next <? 12 then 5 else 6).
Proof.
  intros n next.
  destruct (applyClear_combo_score prev clearedIds card spent) as [Hcombo Hscore].
  fold n next in Hcombo, Hscore.
  split; [done|]. split; [done|]. split; [done|].
  split.
  { unfold getComboMultiplier. rewrite Z.leb_antisym. by destruct (0 <? c). }
  split; [apply getComboMultiplier_table|].
  split.
  { rewrite getComboMultiplier_table. unfold multiplierTable.
    repeat case_match; unfold Qle; simpl; lia. }
  rewrite Hscore.
  assert (∀ k, (getComboMultiplier (combo next) == k # 2)%Q →
               round (inject_Z n * inject_Z BASE_POINTS * getComboMultiplier (combo next))
               = n * 50 * k) as Hk.
  { intros k Heq. unfold round. rewrite Heq. apply round_half_integer. }
  pose proof (getComboMultiplier_table (combo next)) as Ht.
  unfold multiplierTable in Ht.
  repeat case_match;
    match goal with
    | |- _ = _ * ?k => rewrite (Hk k) by (rewrite Ht; by vm_compute)
    end; lia.
Qed.

(** ** Powerup grants *)

(** The thresholds crossed on the way from [oldCombo] to [newCombo]: the
    multiples of 3 in the interval (oldCombo, newCombo]. *)
Definition thresholdsCrossed (oldCombo newCombo : Z) : list Z :=
  filter (λ c, c `mod` 3 = 0) (seqZ (oldCombo + 1) (newCombo - oldCombo)).

(** The kind at position [cycle] of the rotation wild, bomb, rainbow. *)
Definition rotationKind (cycle : Z) : Powerup :=
  match cycle `mod` 3 with
  | 0 => wild
  | 1 => bomb
  | _ => rainbow
  end.

(** The next [n] kinds of the rotation, starting at position [cycle]. *)
Definition rotation (cycle : Z) (n : nat) : list Powerup :=
  (λ i, rotationKind (cycle + Z.of_nat i)) <$> seq 0 n.

(** One unit of each kind of the list added to the inventory. *)
Definition addUnits (inventory : Inventory) (kinds : list Powerup) : Inventory :=
  foldl (λ inv p, inv_set inv p (inv_get inv p + 1)) inventory kinds.

Lemma rotation_S (cycle : Z) (n : nat) :
  rotation cycle (S n) = rotationKind cycle :: rotation (cycle + 1) n.
Proof.
  unfold rotation. simpl. rewrite Z.add_0_r. f_equal.
  rewrite <- fmap_S_seq, <- list_fmap_compose.
  apply list_fmap_ext. intros _ i _. simpl. f_equal. lia.
Qed.

Lemma grantStep_threshold (inv : Inventory) (cycle c : Z) :
  0 ≤ cycle → c `mod` 3 = 0 →
  grantStep (inv, cycle) c
  = (inv_set inv (rotationKind cycle) (inv_get inv (rotationKind cycle) + 1), cycle + 1).
Proof.
  intros Hc Hm. unfold grantStep.
  assert (Z.rem c 3 = 0) as ->.
  { apply Z.rem_divide; [lia|]. by apply Z.mod_divide. }
  simpl. change (Z.of_nat 3) with 3.
  rewrite Z.rem_mod_nonneg by lia.
  unfold rotationKind.
  pose proof (Z.mod_pos_bound cycle 3 ltac:(lia)).
  destruct (cycle `mod` 3) as [|p|p] eqn:E; [done| |lia].
  destruct p as [p|[p|p|]|]; try lia; done.
Qed.

Lemma grantStep_other (acc : Inventory * Z) (c : Z) :
  c `mod` 3 ≠ 0 → grantStep acc c = acc.
Proof.
  intros Hm. unfold grantStep. destruct acc as [inv cycle].
  destruct (Z.eqb_spec (Z.rem c 3) 0) as [E|E]; [|done].
  exfalso. apply Hm. apply Z.mod_divide; [lia|]. by apply Z.rem_divide.
Qed.

Lemma grantPowerups_fold (combos : list Z) (inv : Inventory) (cycle : Z) :
  0 ≤ cycle →
  let n := length (filter (λ c, c `mod` 3 = 0) combos) in
  foldl grantStep (inv, cycle) combos
  = (addUnits inv (rotation cycle n), cycle + Z.of_nat n).
Proof.
  revert inv cycle. induction combos as [|c combos IH]; intros inv cycle Hc; cbn zeta.
  { simpl. by rewrite Z.add_0_r. }
  cbn [foldl].
  destruct (decide (c `mod` 3 = 0)) as [Hm|Hm].
  - rewrite filter_cons_True by done.
    rewrite grantStep_threshold by done.
    rewrite IH by lia. cbn [length]. rewrite rotation_S. cbn [addUnits foldl].
    f_equal. lia.
  - rewrite filter_cons_False by done.
    rewrite grantStep_other by done. by apply IH.
Qed.

(** C5.  A clear grants one powerup unit per multiple of 3 in
    (oldCombo, newCombo], the kinds following the rotation wild, bomb,
    rainbow from the position [powerupCycle], which advances by the number of
    units granted.  Three cards from combo 0 grant one unit, six grant two. *)
Theorem grantPowerups_spec (prev : GameState) (clearedIds : list nat) (card : Card)
    (spent : option Powerup) (inv : Inventory) :
  0 ≤ powerupCycle prev →
  let oldCombo := combo prev in
  let newCombo := combo prev + Z.of_nat (length clearedIds) in
  let granted := length (thresholdsCrossed oldCombo newCombo) in
  let kinds := rotation (powerupCycle prev) granted in
  let next := state (applyClear prev clearedIds (Some card) spent) in
  grantPowerups oldCombo newCombo inv (powerupCycle prev)
  = (addUnits inv kinds, powerupCycle prev + Z.of_nat granted)
  ∧ combo next = newCombo
  ∧ powerupCycle next = powerupCycle prev + Z.of_nat granted
  ∧ powerups next
    = addUnits (match spent with
                | Some p => inv_set (powerups prev) p (Z.max 0 (inv_get (powerups prev) p - 1))
                | None => powerups prev
                end) kinds
  ∧ grantPowerups 0 3 inv 0 = (inv_set inv wild (inv_wild inv + 1), 1)
  ∧ grantPowerups 0 6 inv 0
    = (mkInventory (inv_wild inv + 1) (inv_bomb inv + 1) (inv_rainbow inv), 2).
Proof.
  intros Hc oldCombo newCombo granted kinds next.
  assert (∀ i, grantPowerups oldCombo newCombo i (powerupCycle prev)
               = (addUnits i kinds, powerupCycle prev + Z.of_nat granted)) as Hg.
  { intros i. unfold grantPowerups. by rewrite grantPowerups_fold. }
  split; [apply Hg|].
  subst next. unfold applyClear. fold oldCombo newCombo.
  rewrite Hg. simpl. repeat split; done.
Qed.

Lemma grantPowerups_spec_witness :
  let prev := sampleState LAYOUT [] [] in
  0 ≤ powerupCycle prev
  ∧ powerups (state (applyClear prev [0; 1; 2; 3; 4; 5]%nat
                       (Some (mkCard "H5" 5 Suit.H)) None))
    = mkInventory 1 1 0.
Proof.
  intros prev. split; [done|].
  pose proof (grantPowerups_spec prev [0; 1; 2; 3; 4; 5]%nat
                (mkCard "H5" 5 Suit.H) None (mkInventory 0 0 0)) as Hspec.
  destruct Hspec as (_ & _ & _ & Hinv & _); [done|].
  rewrite Hinv. reflexivity.
Defined.

(** ** What evaluation leaves alone *)

Lemma evaluateState_frame (s : GameState) :
  seed (evaluateState s) = seed s
  ∧ tableau (evaluateState s) = tableau s
  ∧ stock (evaluateState s) = stock s
  ∧ waste (evaluateState s) = waste s
  ∧ hold (evaluateState s) = hold s
  ∧ combo (evaluateState s) = combo s
  ∧ powerups (evaluateState s) = powerups s
  ∧ activePowerup (evaluateState s) = activePowerup s
  ∧ powerupCycle (evaluateState s) = powerupCycle s
  ∧ wrapEnabled (evaluateState s) = wrapEnabled s.
Proof. unfold evaluateState. repeat case_match; done. Qed.

Lemma applyClear_frame (prev : GameState) (ids : list nat) (card : Card)
    (spent : option Powerup) :
  let next := state (applyClear prev ids (Some card) spent) in
  seed next = seed prev
  ∧ tableau next
    = (λ slot, if decide (slot_id slot ∈ ids) then clearSlot slot else slot) <$> tableau prev
  ∧ stock next = stock prev
  ∧ waste next = waste prev ++ [card]
  ∧ hold next = hold prev
  ∧ activePowerup next = None
  ∧ wrapEnabled next = wrapEnabled prev
  ∧ status next = status prev
  ∧ bonusAwarded next = bonusAwarded prev.
Proof. unfold applyClear. destruct (grantPowerups _ _ _ _). done. Qed.

(** ** The generator and the shuffle *)



Lemma insert_Permutation (l : list Card) (i : nat) (a b : Card) :
  l !! i = Some a → a :: <[i := b]> l ≡ₚ b :: l.
Proof.
  intros Hi.
  rewrite insert_take_drop by (by eapply lookup_lt_Some).
  rewrite <- (take_drop_middle l i a Hi) at 3.
  rewrite <- !Permutation_middle. apply perm_swap.
Qed.

Lemma swap_Permutation (deck : list Card) (i j : nat) : swap deck i j ≡ₚ deck.
Proof.
  unfold swap.
  destruct (deck !! i) as [a|] eqn:Hi; [|done].
  destruct (deck !! j) as [b|] eqn:Hj; [|done].
  destruct (decide (i = j)) as [->|Hne].
  { assert (a = b) as -> by congruence.
    by rewrite !(list_insert_id deck j b Hj). }
  apply (Permutation_cons_inv (a := b)).
  rewrite <- (insert_Permutation deck i a b Hi).
  apply insert_Permutation.
  by rewrite list_lookup_insert_ne.
Qed.

(** One round of the shuffle loop, with the generator call spelled out. *)
Lemma shuffle_from_S (i : nat) (deck : list Card) (rng : nat) (h : Heap) :
  let a := default 0 (h !! rng) + 0x6d2b79f5 in
  shuffle_from (S i) deck rng h
  = shuffle_from i (swap deck (S i) (pick (mulberry32_out a # 4294967296) (S i)))
      rng (<[rng := a]> h).
Proof. done. Qed.

Lemma shuffle_from_Permutation (i : nat) (deck : list Card) (rng : nat) (h : Heap) :
  (shuffle_from i deck rng h).1 ≡ₚ deck.
Proof.
  revert deck h. induction i as [|i IH]; intros deck h; [done|].
  rewrite shuffle_from_S, IH. apply swap_Permutation.
Qed.

(** The shuffle reads nothing of the store but the cell of its generator. *)
Lemma shuffle_from_cell (i : nat) (deck : list Card) (r1 r2 : nat) (h1 h2 : Heap) :
  h1 !! r1 = h2 !! r2 →
  (shuffle_from i deck r1 h1).1 = (shuffle_from i deck r2 h2).1.
Proof.
  revert deck h1 h2. induction i as [|i IH]; intros deck h1 h2 Hcell; [done|].
  rewrite !shuffle_from_S, Hcell. apply IH.
  destruct (h2 !! r2) as [a|] eqn:H2.
  - rewrite !list_lookup_insert_eq; [done| |]; by eapply lookup_lt_Some.
  - apply lookup_ge_None in Hcell, H2.
    rewrite !list_insert_ge by done.
    by rewrite !lookup_ge_None_2.
Qed.

(** [createRng] allocates two fresh cells; the second one, which it returns,
    holds a value derived from the seed alone. *)
Lemma createRng_eq (seed : jsstring) (h : Heap) :
  createRng seed h
  = (S (length h),
     h ++ [xmur3_mix (xmur3_hash seed); ushr32 (xmur3_mix (xmur3_hash seed)) 0]).
Proof.
  unfold createRng, xmur3, xmur3_call, mulberry32, bind, alloc, load, store, ret.
  rewrite list_lookup_middle by done. cbn [default].
  rewrite insert_app_r_alt by done. rewrite Nat.sub_diag. cbn [insert list_insert].
  rewrite length_app, <- app_assoc. cbn [length app]. f_equal. lia.
Qed.

Lemma shuffledDeck_heap (seed : jsstring) (h1 h2 : Heap) :
  shuffledDeck seed h1 = shuffledDeck seed h2.
Proof.
  unfold shuffledDeck, bind, shuffle. rewrite !createRng_eq.
  apply shuffle_from_cell.
  rewrite !lookup_app_r by lia.
  by rewrite !Nat.sub_succ_l, !Nat.sub_diag by lia.
Qed.

Lemma shuffledDeck_Permutation (seed : jsstring) (h : Heap) :
  shuffledDeck seed h ≡ₚ createDeck.
Proof.
  unfold shuffledDeck, bind, shuffle. destruct (createRng seed h).
  apply shuffle_from_Permutation.
Qed.

Lemma createDeck_length : length createDeck = 52%nat.
Proof. by vm_compute. Qed.

Lemma LAYOUT_length : length LAYOUT = 28%nat.
Proof. by vm_compute. Qed.

(** The dealt state as a function of the shuffled deck. *)
Lemma createGameState_shuffled (seed : jsstring) (h : Heap) :
  let deck := shuffledDeck seed h in
  (createGameState seed h).1
  = {| seed := seed;
       tableau := imap (λ index pos, mkSlot (slot_id pos) (slot_row pos) (slot_x pos)
                                       (deck !! index)) LAYOUT;
       stock := take 23 (drop 28 deck); waste := drop 51 deck;
       hold := None; score := 0; combo := 0;
       powerups := mkInventory 0 0 0; activePowerup := None;
       powerupCycle := 0; wrapEnabled := true; status := playing;
       bonusAwarded := false |}.
Proof.
  intros deck.
  pose proof (Permutation_length (shuffledDeck_Permutation seed h)) as Hlen.
  rewrite createDeck_length in Hlen. fold deck in Hlen.
  revert Hlen. subst deck. unfold createGameState, shuffledDeck.
  generalize LAYOUT_length. generalize LAYOUT as layout.
  generalize createDeck as deck0. intros deck0 layout Hlayout.
  unfold bind.
  destruct (createRng seed h) as [rng h1].
  destruct (shuffle deck0 rng h1) as [deck h2]. cbn [fst]. intros Hlen.
  rewrite length_imap, Hlayout.
  assert (length (drop 28 deck) = 24%nat) as Hdrop by (rewrite length_drop; lia).
  rewrite last_lookup, Hdrop. cbn [pred].
  destruct (drop 28 deck !! 23%nat) as [top|] eqn:Htop.
  2: { apply lookup_ge_None in Htop. lia. }
  unfold ret. cbn [fst]. f_equal.
  - rewrite removelast_firstn_len, Hdrop. reflexivity.
  - rewrite lookup_drop in Htop.
    rewrite (drop_S deck top 51 Htop).
    rewrite drop_ge by lia. reflexivity.
Qed.

(** ** The deal *)

Lemma tableauCards_imap (deck : list Card) (layout : list Slot) (k : nat) :
  (k + length layout ≤ length deck)%nat →
  tableauCards (imap (λ index pos, mkSlot (slot_id pos) (slot_row pos) (slot_x pos)
                                     (deck !! (k + index)%nat)) layout)
  = take (length layout) (drop k deck).
Proof.
  revert k. induction layout as [|pos layout IH]; intros k Hk; [done|].
  cbn [length] in Hk.
  destruct (lookup_lt_is_Some_2 deck k ltac:(lia)) as [c Hc].
  rewrite imap_cons. unfold tableauCards in *. cbn [omap list_omap slot_card length].
  rewrite Nat.add_0_r, Hc. cbn [mbind option_bind].
  rewrite (drop_S deck c k Hc). cbn [take]. f_equal.
  rewrite <- (IH (S k)) by lia.
  f_equal. apply imap_ext. intros i x _. simpl. do 2 f_equal. lia.
Qed.

Lemma slot_id_imap (deck : list Card) (layout : list Slot) :
  slot_id <$> imap (λ index pos, mkSlot (slot_id pos) (slot_row pos) (slot_x pos)
                                   (deck !! index)) layout
  = slot_id <$> layout.
Proof.
  rewrite fmap_imap. rewrite <- (imap_const slot_id). by apply imap_ext.
Qed.

Lemma clearSlot_imap (deck : list Card) (layout : list Slot) :
  clearSlot <$> imap (λ index pos, mkSlot (slot_id pos) (slot_row pos) (slot_x pos)
                                   (deck !! index)) layout
  = clearSlot <$> layout.
Proof.
  rewrite fmap_imap. rewrite <- (imap_const clearSlot). by apply imap_ext.
Qed.

Lemma LAYOUT_ids : slot_id <$> LAYOUT = seq 0 28.
Proof. by vm_compute. Qed.

Lemma LAYOUT_empty : clearSlot <$> LAYOUT = LAYOUT.
Proof. by vm_compute. Qed.

Lemma shuffledDeck_length (seed : jsstring) (h : Heap) :
  length (shuffledDeck seed h) = 52%nat.
Proof.
  rewrite (Permutation_length (shuffledDeck_Permutation seed h)).
  apply createDeck_length.
Qed.

(** C2, as stated, fails on the stock count: of the 24 cards left after the
    tableau one goes to the waste, so the stock starts at 23, here for the
    default seed. *)
Lemma Deal_candy_stock :
  length (tableau (Deal (js "candy"))) = 28%nat
  ∧ length (waste (Deal (js "candy"))) = 1%nat
  ∧ length (stock (Deal (js "candy"))) = 23%nat
  ∧ length (stock (Deal (js "candy"))) ≠ 24%nat.
Proof. by vm_compute. Qed.

(** C2, amended.  For every seed the deal puts the first 28 cards of the
    shuffled deck on the positions 0..27 of the layout, in layout order, the
    next 23 on the stock in shuffle order, and the last card of the deck, popped
    off the stock, on the waste: 28 tableau cards, 23 stock cards, 1 waste
    card.  The shuffled deck is a permutation of the 52-card deck. *)
Theorem createGameState_shape (seed : jsstring) (h : Heap) :
  let s := (createGameState seed h).1 in
  let deck := shuffledDeck seed h in
  deck ≡ₚ createDeck
  ∧ slot_id <$> tableau s = seq 0 28
  ∧ clearSlot <$> tableau s = LAYOUT
  ∧ slot_card <$> tableau s = Some <$> take 28 deck
  ∧ stock s ++ waste s = drop 28 deck
  ∧ last deck = last (waste s)
  ∧ length (tableau s) = 28%nat
  ∧ length (stock s) = 23%nat
  ∧ length (waste s) = 1%nat.
Proof.
  intros s deck. subst s.
  pose proof (createGameState_shuffled seed h) as Hs. cbv zeta in Hs. fold deck in Hs.
  pose proof (shuffledDeck_length seed h) as Hlen. fold deck in Hlen.
  pose proof (shuffledDeck_Permutation seed h) as Hperm. fold deck in Hperm.
  rewrite Hs. clearbody deck. clear Hs. cbn [tableau stock waste].
  split; [done|].
  split; [by rewrite slot_id_imap, LAYOUT_ids|].
  split; [by rewrite clearSlot_imap, LAYOUT_empty|].
  split.
  { rewrite fmap_imap. apply list_eq. intros i.
    rewrite list_lookup_imap, list_lookup_fmap.
    destruct (decide (i < 28)%nat) as [Hi|Hi].
    - destruct (lookup_lt_is_Some_2 LAYOUT i) as [pos ->]; [by rewrite LAYOUT_length|].
      rewrite lookup_take_lt by done.
      destruct (lookup_lt_is_Some_2 deck i) as [c ->]; [lia|]. done.
    - rewrite (lookup_ge_None_2 LAYOUT) by (rewrite LAYOUT_length; lia).
      rewrite lookup_take_ge by lia. done. }
  split.
  { replace (drop 51 deck) with (drop 23 (drop 28 deck)) by (by rewrite drop_drop).
    apply take_drop. }
  split.
  { rewrite <- (take_drop 51 deck) at 1. rewrite last_app.
    destruct (last (drop 51 deck)) eqn:E; [done|].
    apply last_None in E. apply (f_equal length) in E.
    rewrite length_drop in E. cbn [length] in E. lia. }
  rewrite length_imap, LAYOUT_length, length_take, !length_drop. lia.
Qed.

(** C7.  The deal is a function of the seed alone: whatever generator
    closures earlier deals left behind, two deals with the same seed give the
    same state, with the same tableau, stock and waste; so does a second deal
    right after the first. *)
Theorem createGameState_deterministic (seed : jsstring) (h1 h2 : Heap) :
  (createGameState seed h1).1 = (createGameState seed h2).1
  ∧ (createGameState seed (createGameState seed h1).2).1 = (createGameState seed h1).1
  ∧ Deal seed = (createGameState seed h1).1.
Proof.
  assert (∀ h h', (createGameState seed h).1 = (createGameState seed h').1) as Hdet.
  { intros h h'.
    pose proof (createGameState_shuffled seed h) as Ha.
    pose proof (createGameState_shuffled seed h') as Hb.
    cbv zeta in Ha, Hb. rewrite Ha, Hb.
    by rewrite (shuffledDeck_heap seed h h'). }
  split; [apply Hdet|]. split; [apply Hdet|]. apply Hdet.
Qed.

(** ** The shape of the tableau *)

(** The tableau of a deal keeps the 28 slots of the layout in place: the slot
    at index [i] has id [i]. *)
Definition layoutShaped (t : list Slot) : Prop := slot_id <$> t = seq 0 28.

(** The map of [applyClear] over the tableau. *)
Definition clearIds (ids : list nat) (t : list Slot) : list Slot :=
  (λ slot, if decide (slot_id slot ∈ ids) then clearSlot slot else slot) <$> t.

Lemma layoutShaped_lookup (t : list Slot) (i : nat) (slot : Slot) :
  layoutShaped t → t !! i = Some slot → slot_id slot = i ∧ (i < 28)%nat.
Proof.
  intros Ht Hi.
  assert ((slot_id <$> t) !! i = Some (slot_id slot)) as Hl
    by (by rewrite list_lookup_fmap, Hi).
  rewrite Ht in Hl. apply lookup_seq in Hl. lia.
Qed.

Lemma layoutShaped_length (t : list Slot) : layoutShaped t → length t = 28%nat.
Proof.
  intros Ht. apply (f_equal length) in Ht.
  by rewrite length_fmap, length_seq in Ht.
Qed.

Lemma clearIds_slot_id (ids : list nat) (t : list Slot) :
  slot_id <$> clearIds ids t = slot_id <$> t.
Proof.
  unfold clearIds. rewrite <- list_fmap_compose.
  apply list_fmap_ext. intros _ slot _. simpl. by destruct (decide _).
Qed.

Lemma clearIds_layoutShaped (ids : list nat) (t : list Slot) :
  layoutShaped t → layoutShaped (clearIds ids t).
Proof. unfold layoutShaped. by rewrite clearIds_slot_id. Qed.

(** ** The transitions, case by case *)

Lemma applyClear_tableau (prev : GameState) (ids : list nat) (card : Card)
    (spent : option Powerup) :
  tableau (state (applyClear prev ids (Some card) spent)) = clearIds ids (tableau prev).
Proof. unfold applyClear. by destruct (grantPowerups _ _ _ _). Qed.

(** A click is either rejected or clears: a plain play of the clicked card
    on a waste top of adjacent rank, or a powerup play with the clear set of
    the active powerup. *)
Lemma handleCardClick_cases (slotId : nat) (s : GameState) :
  handleCardClick slotId s = s
  ∨ ∃ slot card ids spent,
      status s = playing
      ∧ tableau s !! slotId = Some slot
      ∧ slot_card slot = Some card
      ∧ isExposed slot (tableau s) = true
      ∧ ((spent = None ∧ activePowerup s = None ∧ ids = [slotId]
          ∧ ∃ top, last (waste s) = Some top
                   ∧ isAdjacentRank (rank card) (rank top) (wrapEnabled s) = true)
         ∨ ∃ p, spent = Some p ∧ activePowerup s = Some p
                ∧ 0 < inv_get (powerups s) p
                ∧ ids = powerupClearSet s slotId card p)
      ∧ handleCardClick slotId s
        = evaluateState (state (applyClear s ids (Some card) spent)).
Proof.
  unfold handleCardClick.
  destruct (decide (status s = playing)) as [Hp|Hp];
    [rewrite bool_decide_eq_true_2 by done|rewrite bool_decide_eq_false_2 by done; by left].
  cbn [negb].
  destruct (tableau s !! slotId) as [slot|] eqn:Hs; [|by left].
  destruct (slot_card slot) as [card|] eqn:Hc; [|by left].
  destruct (isExposed slot (tableau s)) eqn:He; [|by left].
  cbn [negb].
  destruct (activePowerup s) as [p|] eqn:Ha.
  - destruct (Z.leb_spec (inv_get (powerups s) p) 0) as [Hi|Hi]; [by left|].
    right. exists slot, card, (powerupClearSet s slotId card p), (Some p).
    repeat split; try done. right. by exists p.
  - destruct (last (waste s)) as [top|] eqn:Hw; [|by left].
    destruct (isAdjacentRank _ _ _) eqn:Hadj; [|by left].
    right. exists slot, card, [slotId], None.
    repeat split; try done. left. repeat split; try done. by exists top.
Qed.

Lemma reachable_run (seed : jsstring) (actions : list Action) :
  reachable (run seed actions).
Proof.
  unfold run. induction actions as [|a actions IH] using rev_ind.
  - apply reachable_deal.
  - rewrite foldl_app. by apply reachable_step.
Qed.

Lemma step_tableau (a : Action) (s : GameState) :
  tableau (step a s) = tableau s ∨ ∃ ids, tableau (step a s) = clearIds ids (tableau s).
Proof.
  destruct a as [slotId| | |enabled|p]; simpl.
  - destruct (handleCardClick_cases slotId s) as [->|(slot & card & ids & spent & _ & _ & _ & _ & _ & ->)];
      [by left|right].
    exists ids. destruct (evaluateState_frame (state (applyClear s ids (Some card) spent)))
      as (_ & -> & _). apply applyClear_tableau.
  - left. unfold drawFromStock. destruct (negb _); [done|].
    destruct (last (stock s)); [|done].
    match goal with |- tableau (evaluateState ?x) = _ =>
      by destruct (evaluateState_frame x) as (_ & -> & _) end.
  - left. unfold useHold. destruct (negb _); [done|].
    destruct (last (waste s)); [|done].
    match goal with |- tableau (evaluateState ?x) = _ =>
      by destruct (evaluateState_frame x) as (_ & -> & _) end.
  - left. unfold toggleWrap. by case_match.
  - left. unfold togglePowerup. by repeat case_match.
Qed.

Lemma createGameState_layoutShaped (seed : jsstring) (h : Heap) :
  layoutShaped (tableau (createGameState seed h).1).
Proof.
  pose proof (createGameState_shuffled seed h) as Hs. cbv zeta in Hs.
  rewrite Hs. unfold layoutShaped. cbn [tableau].
  by rewrite slot_id_imap, LAYOUT_ids.
Qed.

Lemma reachable_layoutShaped (s : GameState) : reachable s → layoutShaped (tableau s).
Proof.
  induction 1 as [seed h|a s _ IH].
  - apply createGameState_layoutShaped.
  - destruct (step_tableau a s) as [->|[ids ->]]; [done|].
    by apply clearIds_layoutShaped.
Qed.

(** ** The cards of a state *)

Lemma evaluateState_cards (s : GameState) : cards (evaluateState s) = cards s.
Proof.
  unfold cards.
  by destruct (evaluateState_frame s) as (_ & -> & -> & -> & -> & _).
Qed.

Lemma applyClear_cards (prev : GameState) (ids : list nat) (card : Card)
    (spent : option Powerup) :
  cards (state (applyClear prev ids (Some card) spent))
  ≡ₚ (tableauCards (clearIds ids (tableau prev)) ++ [card])
     ++ stock prev ++ waste prev ++ option_list (hold prev).
Proof.
  unfold cards.
  destruct (applyClear_frame prev ids card spent) as (_ & -> & -> & -> & -> & _).
  fold (clearIds ids (tableau prev)).
  generalize (tableauCards (clearIds ids (tableau prev))), (option_list (hold prev)).
  intros l1 l2. solve_Permutation.
Qed.

(** Clearing only takes cards off the tableau. *)
Lemma tableauCards_clearIds_sublist (ids : list nat) (t : list Slot) :
  tableauCards (clearIds ids t) `sublist_of` tableauCards t.
Proof.
  unfold tableauCards, clearIds. induction t as [|slot t IH]; [done|].
  cbn [fmap list_fmap omap list_omap].
  destruct (decide (slot_id slot ∈ ids)); cbn [clearSlot slot_card].
  - destruct (slot_card slot); [by apply sublist_cons|done].
  - destruct (slot_card slot); [by apply sublist_skip|done].
Qed.

(** Slots whose ids are not cleared, or that hold no card, keep the cards
    of the tableau as they are. *)
Lemma tableauCards_clearIds_id (ids : list nat) (t : list Slot) :
  (∀ slot, slot ∈ t → slot_id slot ∈ ids → slot_card slot = None) →
  tableauCards (clearIds ids t) = tableauCards t.
Proof.
  unfold tableauCards, clearIds. induction t as [|slot t IH]; intros Hids; [done|].
  cbn [fmap list_fmap omap list_omap].
  rewrite IH by (intros ???; apply Hids; [by right|done]).
  destruct (decide (slot_id slot ∈ ids)) as [Hin|Hin]; [|done].
  cbn [clearSlot slot_card]. by rewrite (Hids slot) by (done || by left).
Qed.

Lemma tableauCards_split (t : list Slot) (i : nat) (slot : Slot) (card : Card) :
  t !! i = Some slot → slot_card slot = Some card →
  tableauCards t = tableauCards (take i t) ++ card :: tableauCards (drop (S i) t).
Proof.
  intros Hi Hc. rewrite <- (take_drop_middle t i slot Hi) at 1.
  unfold tableauCards. rewrite omap_app. cbn [omap list_omap]. by rewrite Hc.
Qed.

Lemma clearIds_app (ids : list nat) (t1 t2 : list Slot) :
  clearIds ids (t1 ++ t2) = clearIds ids t1 ++ clearIds ids t2.
Proof. apply fmap_app. Qed.

(** A clear that includes the slot of the card played: the cards left on
    the tableau, with the card played, are among those it held. *)
Lemma tableauCards_clearIds_played (ids : list nat) (t : list Slot) (i : nat)
    (slot : Slot) (card : Card) :
  t !! i = Some slot → slot_card slot = Some card → slot_id slot ∈ ids →
  tableauCards (clearIds ids t) ++ [card] ⊆+ tableauCards t.
Proof.
  intros Hi Hc Hin. rewrite (tableauCards_split t i slot card Hi Hc).
  rewrite <- (take_drop_middle t i slot Hi) at 1.
  rewrite clearIds_app. unfold tableauCards at 1. rewrite omap_app. 
  fold (tableauCards (clearIds ids (take i t))).
  change (clearIds ids (slot :: drop (S i) t))
    with ((if decide (slot_id slot ∈ ids) then clearSlot slot else slot)
            :: clearIds ids (drop (S i) t)).
  rewrite decide_True by done. cbn [omap list_omap clearSlot slot_card mbind option_bind].
  fold (tableauCards (clearIds ids (drop (S i) t))).
  rewrite <- app_assoc. apply submseteq_app; [apply sublist_submseteq, tableauCards_clearIds_sublist|].
  rewrite <- Permutation_cons_append. apply submseteq_skip.
  apply sublist_submseteq, tableauCards_clearIds_sublist.
Qed.

(** When the slot of the card played is the only cleared slot that held a
    card, nothing else leaves the tableau. *)
Lemma tableauCards_clearIds_one (ids : list nat) (t : list Slot) (i : nat)
    (slot : Slot) (card : Card) :
  t !! i = Some slot → slot_card slot = Some card → slot_id slot ∈ ids →
  (∀ j other, t !! j = Some other → j ≠ i → slot_id other ∈ ids → slot_card other = None) →
  tableauCards (clearIds ids t) ++ [card] ≡ₚ tableauCards t.
Proof.
  intros Hi Hc Hin Hothers. rewrite (tableauCards_split t i slot card Hi Hc).
  rewrite <- (take_drop_middle t i slot Hi) at 1.
  rewrite clearIds_app. unfold tableauCards at 1. rewrite omap_app. 
  fold (tableauCards (clearIds ids (take i t))).
  change (clearIds ids (slot :: drop (S i) t))
    with ((if decide (slot_id slot ∈ ids) then clearSlot slot else slot)
            :: clearIds ids (drop (S i) t)).
  rewrite decide_True by done. cbn [omap list_omap clearSlot slot_card mbind option_bind].
  fold (tableauCards (clearIds ids (drop (S i) t))).
  rewrite !tableauCards_clearIds_id.
  - rewrite <- app_assoc. apply Permutation_app_head. symmetry. apply Permutation_cons_append.
  - intros other Ho. apply list_elem_of_lookup in Ho as [j Hj].
    rewrite lookup_drop in Hj. apply (Hothers _ _ Hj). lia.
  - intros other Ho. apply list_elem_of_lookup in Ho as [j Hj].
    apply lookup_take_Some in Hj as [Hj Hlt]. apply (Hothers _ _ Hj). lia.
Qed.

Lemma last_removelast {A} (l : list A) (x : A) :
  last l = Some x → l = removelast l ++ [x].
Proof.
  intros Hl. apply last_Some in Hl as [l' ->]. by rewrite removelast_last.
Qed.

Lemma drawFromStock_cards (s : GameState) : cards (drawFromStock s) ≡ₚ cards s.
Proof.
  unfold drawFromStock. destruct (negb _); [done|].
  destruct (last (stock s)) as [drawn|] eqn:Hl; [|done].
  rewrite evaluateState_cards. unfold cards. cbn [tableau stock waste hold].
  apply last_removelast in Hl. revert Hl.
  generalize (removelast (stock s)), (tableauCards (tableau s)), (option_list (hold s)).
  intros l1 l2 l3 ->. solve_Permutation.
Qed.

Lemma useHold_cards (s : GameState) : cards (useHold s) ≡ₚ cards s.
Proof.
  unfold useHold. destruct (negb _); [done|].
  destruct (last (waste s)) as [top|] eqn:Hl; [|done].
  rewrite evaluateState_cards. unfold cards. cbn [tableau stock waste hold].
  apply last_removelast in Hl. revert Hl.
  generalize (removelast (waste s)), (tableauCards (tableau s)).
  intros l1 l2 ->. destruct (hold s); cbn [option_list]; solve_Permutation.
Qed.

Lemma toggleWrap_cards (enabled : bool) (s : GameState) :
  cards (toggleWrap enabled s) = cards s.
Proof. unfold toggleWrap. by destruct (bool_decide _). Qed.

Lemma togglePowerup_cards (p : Powerup) (s : GameState) :
  cards (togglePowerup p s) = cards s.
Proof. unfold togglePowerup. by repeat case_match. Qed.

(** ** Exposure *)

Lemma isExposed_spec (slot : Slot) (t : list Slot) :
  isExposed slot t = true
  ↔ is_Some (slot_card slot) ∧ ∀ p, p ∈ parentsOf (slot_id slot) → cardAt t p = None.
Proof.
  unfold isExposed. destruct (slot_card slot) as [c|].
  - rewrite forallb_forall. split.
    + intros Hall. split; [by eexists|]. intros p Hp.
      apply list_elem_of_In, Hall in Hp. apply negb_true_iff, bool_decide_eq_false in Hp.
      by apply eq_None_not_Some.
    + intros [_ Hall] p Hp. apply list_elem_of_In, Hall in Hp.
      apply negb_true_iff, bool_decide_eq_false. by rewrite Hp, <- eq_None_not_Some.
  - split; [done|]. by intros [[? ?] _].
Qed.

Lemma elem_of_getExposedIds (t : list Slot) (i : nat) :
  layoutShaped t →
  i ∈ getExposedIds t ↔ ∃ slot, t !! i = Some slot ∧ isExposed slot t = true.
Proof.
  intros Ht. unfold getExposedIds. rewrite list_elem_of_fmap. split.
  - intros (slot & -> & Hin). apply list_elem_of_filter in Hin as [He Hin].
    apply list_elem_of_lookup in Hin as [j Hj].
    destruct (layoutShaped_lookup t j slot Ht Hj) as [-> _]. by exists slot.
  - intros (slot & Hi & He). exists slot.
    destruct (layoutShaped_lookup t i slot Ht Hi) as [-> _].
    split; [done|]. apply list_elem_of_filter. split; [done|].
    by eapply list_elem_of_lookup_2.
Qed.

(** Every neighbour of a slot lies directly above it or directly below it. *)
Lemma adjacentTo_parent_or_child (i n : nat) :
  (i < 28)%nat → n ∈ adjacentTo i → n ∈ parentsOf i ∨ i ∈ parentsOf n.
Proof.
  assert (forallb (λ i, forallb (λ n, bool_decide (n ∈ parentsOf i)
                                      || bool_decide (i ∈ parentsOf n))
                                (adjacentTo i)) (seq 0 28) = true) as Hall
    by (by vm_compute).
  intros Hi Hn. rewrite forallb_forall in Hall.
  specialize (Hall i). rewrite <- list_elem_of_In, elem_of_seq in Hall.
  specialize (Hall ltac:(lia)). rewrite forallb_forall in Hall.
  apply list_elem_of_In, Hall in Hn.
  apply orb_true_iff in Hn as [Hn|Hn]; apply bool_decide_eq_true in Hn; auto.
Qed.

(** An exposed slot has no exposed neighbour: of two slots one above the
    other, the lower one is covered while the upper one holds a card. *)
Lemma exposed_neighbors_nil (t : list Slot) (i : nat) (slot : Slot) :
  layoutShaped t → t !! i = Some slot → isExposed slot t = true →
  filter (λ id, id ∈ getExposedIds t) (adjacentTo i) = [].
Proof.
  intros Ht Hi He.
  destruct (layoutShaped_lookup t i slot Ht Hi) as [Hid Hlt].
  apply isExposed_spec in He as [[card Hcard] Hpar]. rewrite Hid in Hpar.
  destruct (filter _ _) as [|n l] eqn:Hf; [done|]. exfalso.
  assert (n ∈ filter (λ id, id ∈ getExposedIds t) (adjacentTo i)) as Hn
    by (rewrite Hf; by left).
  apply list_elem_of_filter in Hn as [Hexp Hadj].
  apply (elem_of_getExposedIds t n Ht) in Hexp as (other & Hn & Hoe).
  destruct (layoutShaped_lookup t n other Ht Hn) as [Hnid _].
  apply isExposed_spec in Hoe as [[c Hc] Hopar]. rewrite Hnid in Hopar.
  destruct (adjacentTo_parent_or_child i n Hlt Hadj) as [Hp|Hp].
  - apply Hpar in Hp. unfold cardAt in Hp. rewrite Hn in Hp. simpl in Hp. congruence.
  - apply Hopar in Hp. unfold cardAt in Hp. rewrite Hi in Hp. simpl in Hp. congruence.
Qed.

Lemma elem_of_setAdd (v : nat) (s : list nat) (x : nat) :
  x ∈ setAdd v s ↔ x = v ∨ x ∈ s.
Proof.
  unfold setAdd. destruct (decide (v ∈ s)).
  - split; [by right|]. by intros [->|?].
  - rewrite elem_of_app, list_elem_of_singleton. tauto.
Qed.

Lemma elem_of_dedupe (ids : list nat) (x : nat) : x ∈ dedupe ids ↔ x ∈ ids.
Proof.
  unfold dedupe.
  assert (∀ acc, x ∈ foldl (λ s v, setAdd v s) acc ids ↔ x ∈ acc ∨ x ∈ ids) as Hgen.
  { induction ids as [|v ids IH]; intros acc; cbn [foldl].
    - rewrite elem_of_nil. tauto.
    - rewrite IH, elem_of_setAdd, elem_of_cons. tauto. }
  rewrite Hgen, elem_of_nil. tauto.
Qed.

(** On the tableau of a deal the bomb clears the clicked card and nothing
    else. *)
Lemma powerupClearSet_bomb (s : GameState) (slotId : nat) (slot : Slot) (card : Card) :
  layoutShaped (tableau s) → tableau s !! slotId = Some slot →
  isExposed slot (tableau s) = true →
  powerupClearSet s slotId card bomb = [slotId].
Proof.
  intros Ht Hi He. unfold powerupClearSet.
  by rewrite (exposed_neighbors_nil (tableau s) slotId slot Ht Hi He).
Qed.

Lemma powerupClearSet_played (s : GameState) (slotId : nat) (slot : Slot) (card : Card)
    (p : Powerup) :
  layoutShaped (tableau s) → tableau s !! slotId = Some slot →
  slot_card slot = Some card → isExposed slot (tableau s) = true →
  slotId ∈ powerupClearSet s slotId card p.
Proof.
  intros Ht Hi Hc He. destruct p; cbn [powerupClearSet].
  - by left.
  - apply elem_of_dedupe. by left.
  - apply list_elem_of_filter. split.
    + unfold cardAt. rewrite Hi. simpl. by rewrite Hc.
    + apply elem_of_getExposedIds; [done|]. by exists slot.
Qed.

Lemma handleCardClick_cards_sub (slotId : nat) (s : GameState) :
  layoutShaped (tableau s) → cards (handleCardClick slotId s) ⊆+ cards s.
Proof.
  intros Ht.
  destruct (handleCardClick_cases slotId s)
    as [->|(slot & card & ids & spent & _ & Hi & Hc & He & Hids & ->)]; [done|].
  rewrite evaluateState_cards, applyClear_cards. unfold cards.
  apply submseteq_skips_r.
  apply (tableauCards_clearIds_played ids (tableau s) slotId slot card Hi Hc).
  destruct (layoutShaped_lookup _ _ _ Ht Hi) as [-> _].
  destruct Hids as [(_ & _ & -> & _)|(p & _ & _ & _ & ->)]; [by left|].
  by eapply powerupClearSet_played.
Qed.

Lemma handleCardClick_cards (slotId : nat) (s : GameState) :
  layoutShaped (tableau s) → activePowerup s ≠ Some rainbow →
  cards (handleCardClick slotId s) ≡ₚ cards s.
Proof.
  intros Ht Hr.
  destruct (handleCardClick_cases slotId s)
    as [->|(slot & card & ids & spent & _ & Hi & Hc & He & Hids & ->)]; [done|].
  rewrite evaluateState_cards, applyClear_cards. unfold cards.
  apply Permutation_app_tail.
  assert (ids = [slotId]) as ->.
  { destruct Hids as [(_ & _ & -> & _)|(p & _ & Ha & _ & ->)]; [done|].
    destruct p; [done| |congruence]. by eapply powerupClearSet_bomb. }
  destruct (layoutShaped_lookup _ _ _ Ht Hi) as [Hid _].
  apply (tableauCards_clearIds_one [slotId] (tableau s) slotId slot card Hi Hc).
  { rewrite Hid. by left. }
  intros j other Hj Hne Hin. apply list_elem_of_singleton in Hin.
  destruct (layoutShaped_lookup _ _ _ Ht Hj) as [Hjid _]. congruence.
Qed.

Lemma step_cards_sub (a : Action) (s : GameState) :
  layoutShaped (tableau s) → cards (step a s) ⊆+ cards s.
Proof.
  intros Ht. destruct a as [slotId| | |enabled|p]; cbn [step].
  - by apply handleCardClick_cards_sub.
  - by rewrite drawFromStock_cards.
  - by rewrite useHold_cards.
  - by rewrite toggleWrap_cards.
  - by rewrite togglePowerup_cards.
Qed.

Lemma createGameState_cards (seed : jsstring) (h : Heap) :
  cards (createGameState seed h).1 = shuffledDeck seed h.
Proof.
  pose proof (createGameState_shuffled seed h) as Hs. cbv zeta in Hs. rewrite Hs.
  pose proof (shuffledDeck_length seed h) as Hlen.
  generalize dependent (shuffledDeck seed h). intros deck _ Hlen.
  unfold cards. cbn [tableau stock waste hold option_list].
  pose proof (tableauCards_imap deck LAYOUT 0) as Ht.
  rewrite LAYOUT_length in Ht. cbn [Nat.add drop] in Ht. rewrite Ht by lia.
  rewrite app_nil_r.
  replace (drop 51 deck) with (drop 23 (drop 28 deck)) by (by rewrite drop_drop).
  by rewrite !take_drop.
Qed.

Lemma createDeck_NoDup : NoDup createDeck.
Proof. apply (bool_decide_unpack (NoDup createDeck)). by vm_compute. Qed.

Lemma reachable_cards_sub (s : GameState) : reachable s → cards s ⊆+ createDeck.
Proof.
  induction 1 as [seed h|a s Hs IH].
  - rewrite createGameState_cards. by rewrite shuffledDeck_Permutation.
  - etrans; [|done]. by apply step_cards_sub, reachable_layoutShaped.
Qed.

(** ** Deck conservation *)

(** A line of play on the deal of seed ["d"] that ends with a rainbow clear
    of two exposed cards of one rank. *)
Definition rainbowTrace : list Action :=
  [Draw; Click 2; Draw; Click 0; Click 4; Click 3; Click 10; Click 11;
   SelectPowerup wild; Click 1; Click 5; Click 20; Click 8;
   SelectPowerup rainbow; Click 7].

Lemma NoDup_submseteq_l (l k : list Card) : l ⊆+ k → NoDup k → NoDup l.
Proof.
  intros Hsub Hk. apply submseteq_Permutation in Hsub as [k' Hk'].
  rewrite Hk' in Hk. by apply NoDup_app in Hk as [? _].
Qed.

(** C1, as stated, fails: a rainbow clear takes every exposed card of the
    chosen rank off the tableau and puts only the clicked one on the waste.
    After this line of play 51 cards are left. *)
Lemma rainbow_clear_loses_cards :
  reachable (run (js "d") rainbowTrace)
  ∧ length (cards (run (js "d") rainbowTrace)) = 51%nat
  ∧ ¬ cards (run (js "d") rainbowTrace) ≡ₚ createDeck.
Proof.
  split; [apply reachable_run|].
  assert (length (cards (run (js "d") rainbowTrace)) = 51%nat) as Hlen by (by vm_compute).
  split; [done|]. intros Hp. apply Permutation_length in Hp.
  rewrite Hlen, createDeck_length in Hp. lia.
Qed.

(** ** The stock bonus *)

(** What a transition does to the state: nothing, a change of the wrap
    flag, a change of the selected powerup, or a move followed by the
    terminal evaluation. *)
Lemma step_cases (a : Action) (s : GameState) :
  step a s = s
  ∨ (∃ b, step a s = with_wrapEnabled b s)
  ∨ (status s = playing ∧ ∃ p, step a s = with_activePowerup p s)
  ∨ (status s = playing
     ∧ ∃ x, step a s = evaluateState x ∧ status x = playing
            ∧ bonusAwarded x = bonusAwarded s ∧ activePowerup x = None
            ∧ (tableau x = tableau s ∨ ∃ ids, tableau x = clearIds ids (tableau s))).
Proof.
  destruct a as [slotId| | |enabled|p]; cbn [step].
  - destruct (handleCardClick_cases slotId s)
      as [->|(slot & card & ids & spent & Hp & _ & _ & _ & _ & ->)]; [by left|].
    do 3 right. split; [done|]. eexists. split; [done|].
    destruct (applyClear_frame s ids card spent) as (_ & Ht & _ & _ & _ & -> & _ & -> & ->).
    repeat split; try done. right. exists ids. apply applyClear_tableau.
  - unfold drawFromStock.
    destruct (decide (status s = playing)) as [Hp|Hp];
      [rewrite bool_decide_eq_true_2 by done|rewrite bool_decide_eq_false_2 by done; by left].
    cbn [negb]. destruct (last (stock s)); [|by left].
    do 3 right. split; [done|]. eexists. split; [done|]. cbn. auto.
  - unfold useHold.
    destruct (decide (status s = playing)) as [Hp|Hp];
      [rewrite bool_decide_eq_true_2 by done|rewrite bool_decide_eq_false_2 by done; by left].
    cbn [negb]. destruct (last (waste s)); [|by left].
    do 3 right. split; [done|]. eexists. split; [done|]. cbn. auto.
  - unfold toggleWrap. destruct (bool_decide _); [by left|]. right. left. by eexists.
  - unfold togglePowerup.
    destruct (decide (status s = playing)) as [Hp|Hp];
      [rewrite bool_decide_eq_true_2 by done|rewrite bool_decide_eq_false_2 by done; by left].
    cbn [negb]. destruct (_ <=? _); [by left|]. do 2 right. left. split; [done|]. by eexists.
Qed.

(** The four ways of the terminal evaluation. *)
Lemma evaluateState_spec (s : GameState) :
  (status s ≠ playing ∧ evaluateState s = s)
  ∨ (status s = playing ∧ tableauCleared (tableau s) = true ∧ bonusAwarded s = false
     ∧ evaluateState s
       = with_bonus (score s + Z.of_nat (length (stock s)) * STOCK_BONUS) s)
  ∨ (status s = playing ∧ tableauCleared (tableau s) = true ∧ bonusAwarded s = true
     ∧ evaluateState s = with_status won s)
  ∨ (status s = playing ∧ tableauCleared (tableau s) = false
     ∧ (evaluateState s = s ∨ evaluateState s = with_status lost s)).
Proof.
  unfold evaluateState.
  destruct (decide (status s = playing)) as [Hp|Hp];
    [rewrite bool_decide_eq_true_2 by done|rewrite bool_decide_eq_false_2 by done; by left].
  cbn [negb]. right.
  destruct (tableauCleared (tableau s)).
  - destruct (bonusAwarded s); cbn [negb]; [right; left|left]; done.
  - do 2 right. split; [done|]. split; [done|].
    destruct (bool_decide (length (stock s) = 0%nat)); [|by left].
    cbv zeta. destruct (bool_decide (length _ = 0%nat)); [by right|].
    destruct (negb _ && negb _); [by right|by left].
Qed.

(** The score after evaluation: the stock bonus is added exactly when the
    evaluation awards it. *)
Lemma evaluateState_score (s : GameState) :
  score (evaluateState s)
  = score s + (if negb (bonusAwarded s) && bonusAwarded (evaluateState s)
               then Z.of_nat (length (stock s)) * STOCK_BONUS else 0).
Proof.
  destruct (evaluateState_spec s)
    as [[_ ->]|[(_ & _ & Hb & ->)|[(_ & _ & Hb & ->)|(_ & _ & [->| ->])]]];
    cbn [with_bonus with_status score bonusAwarded]; rewrite ?Hb; cbn [negb andb];
    try lia; destruct (bonusAwarded s); cbn; lia.
Qed.

Lemma evaluateState_award (s : GameState) :
  negb (bonusAwarded s) && bonusAwarded (evaluateState s) = true
  ↔ status s = playing ∧ tableauCleared (tableau s) = true ∧ bonusAwarded s = false.
Proof.
  destruct (evaluateState_spec s)
    as [[Hp ->]|[(Hp & Hc & Hb & ->)|[(Hp & Hc & Hb & ->)|(Hp & Hc & [->| ->])]]];
    cbn [with_bonus with_status bonusAwarded]; rewrite ?Hb, ?Hc; cbn [negb andb].
  - split; [by destruct (bonusAwarded s)|by intros [? _]].
  - done.
  - split; [done|by intros (_ & _ & ?)].
  - split; [by destruct (bonusAwarded s)|by intros (_ & ? & _)].
  - split; [by destruct (bonusAwarded s)|by intros (_ & ? & _)].
Qed.

(** The bookkeeping of a deal: the bonus has been awarded exactly when the
    game is won, which is exactly when the tableau is empty. *)
Definition bonusInvariant (s : GameState) : Prop :=
  (bonusAwarded s = true ↔ status s = won)
  ∧ (status s = won ↔ tableauCleared (tableau s) = true).

Lemma evaluateState_bonusInvariant (x : GameState) :
  status x = playing → bonusAwarded x = false → bonusInvariant (evaluateState x).
Proof.
  intros Hp Hb. unfold bonusInvariant.
  destruct (evaluateState_spec x)
    as [[? _]|[(_ & Hc & _ & ->)|[(_ & _ & ? & _)|(_ & Hc & [->| ->])]]];
    [done| |congruence| |];
    cbn [with_bonus with_status bonusAwarded status tableau]; rewrite ?Hp, ?Hb, ?Hc; done.
Qed.

Lemma tableauCleared_clearIds (ids : list nat) (t : list Slot) :
  tableauCleared t = true → tableauCleared (clearIds ids t) = true.
Proof.
  unfold tableauCleared, clearIds. rewrite !forallb_forall.
  intros Hall slot Hin. apply list_elem_of_In, list_elem_of_fmap in Hin as (slot' & -> & Hin).
  destruct (decide _); [done|]. by apply Hall, list_elem_of_In.
Qed.

Lemma createGameState_not_cleared (seed : jsstring) (h : Heap) :
  tableauCleared (tableau (createGameState seed h).1) = false.
Proof.
  pose proof (createGameState_shuffled seed h) as Hs. cbv zeta in Hs. rewrite Hs.
  pose proof (shuffledDeck_length seed h) as Hlen.
  generalize dependent (shuffledDeck seed h). intros deck _ Hlen.
  cbn [tableau]. pose proof LAYOUT_length as Hl.
  destruct LAYOUT as [|pos layout]; [done|].
  destruct deck as [|c deck]; [done|]. done.
Qed.

Lemma step_bonusInvariant (a : Action) (s : GameState) :
  bonusInvariant s → bonusInvariant (step a s).
Proof.
  intros [Hb Hw].
  destruct (step_cases a s)
    as [->|[[b ->]|[[Hp [p ->]]|(Hp & x & -> & Hx & Hbx & _)]]]; try done.
  apply evaluateState_bonusInvariant; [done|].
  rewrite Hbx. destruct (bonusAwarded s); [|done].
  destruct Hb as [Hb _]. rewrite Hb in Hp; done.
Qed.

Lemma reachable_bonusInvariant (s : GameState) : reachable s → bonusInvariant s.
Proof.
  induction 1 as [seed h|a s _ IH]; [|by apply step_bonusInvariant].
  unfold bonusInvariant. rewrite createGameState_not_cleared.
  pose proof (createGameState_shuffled seed h) as Hs. cbv zeta in Hs. rewrite Hs.
  clear Hs. cbn [bonusAwarded status]. split; split; discriminate.
Qed.

(** Once the game is over no transition touches the score, the status or the
    award. *)
Lemma step_game_over (a : Action) (s : GameState) :
  status s ≠ playing →
  score (step a s) = score s ∧ status (step a s) = status s
  ∧ bonusAwarded (step a s) = bonusAwarded s.
Proof.
  intros Hs.
  by destruct (step_cases a s)
    as [->|[[b ->]|[[Hp [p ->]]|(Hp & x & -> & Hx & Hbx & _)]]].
Qed.

Lemma steps_game_over (actions : list Action) (s : GameState) :
  status s ≠ playing →
  let s' := foldl (λ s a, step a s) s actions in
  score s' = score s ∧ status s' = status s ∧ bonusAwarded s' = bonusAwarded s.
Proof.
  revert s. induction actions as [|a actions IH]; intros s Hs; [done|].
  cbn [foldl]. destruct (step_game_over a s Hs) as (Hsc & Hst & Hb).
  destruct (IH (step a s)) as (-> & -> & ->); [by rewrite Hst|done].
Qed.

(** The winning line of play on the default deal. *)
Definition winningTrace : list Action :=
  [Draw; Click 1; Draw; Click 0; Click 5; Draw; Click 2; Click 3; Draw; Click 6;
   Click 7; Draw; Click 4; Draw; Draw; Click 9; Click 10; Click 14;
   SelectPowerup wild; Click 8; Click 16; Click 12; Click 19; Click 13; Click 23;
   Click 18; SelectPowerup bomb; Click 11; Click 15; Click 21; Click 17;
   SelectPowerup wild; Click 20; SelectPowerup bomb; Click 22;
   SelectPowerup rainbow; Click 24; Click 25; Click 27; Click 26].

(** C4.  The evaluation adds [stock.length * STOCK_BONUS] to the score
    exactly when it turns [bonusAwarded] from false to true, which it does
    exactly on a playing state with an empty tableau; with [bonusAwarded] set,
    or on a won state, it adds nothing.  In a reachable state the bonus has
    been awarded exactly when the tableau is empty, that is when the game is
    won, and from then on no sequence of transitions changes the score. *)
Theorem stock_bonus_once (s : GameState) :
  reachable s →
  (∀ x, score (evaluateState x)
        = score x + (if negb (bonusAwarded x) && bonusAwarded (evaluateState x)
                     then Z.of_nat (length (stock x)) * STOCK_BONUS else 0))
  ∧ (∀ x, negb (bonusAwarded x) && bonusAwarded (evaluateState x) = true
          ↔ status x = playing ∧ tableauCleared (tableau x) = true
            ∧ bonusAwarded x = false)
  ∧ (∀ x, bonusAwarded x = true →
          score (evaluateState x) = score x ∧ bonusAwarded (evaluateState x) = true)
  ∧ (∀ x, status x = won → evaluateState x = x)
  ∧ (bonusAwarded s = true ↔ tableauCleared (tableau s) = true)
  ∧ (bonusAwarded s = true ↔ status s = won)
  ∧ (bonusAwarded s = true →
     ∀ actions, let s' := foldl (λ s a, step a s) s actions in
                score s' = score s ∧ bonusAwarded s' = true ∧ status s' = won).
Proof.
  intros Hs. destruct (reachable_bonusInvariant s Hs) as [Hb Hw].
  split; [apply evaluateState_score|]. split; [apply evaluateState_award|].
  split.
  { intros x Hx. pose proof (evaluateState_score x) as Hsc. rewrite Hx in Hsc.
    cbn in Hsc. split; [lia|].
    unfold evaluateState. repeat case_match; done. }
  split.
  { intros x Hx. apply evaluateState_not_playing. by rewrite Hx. }
  split; [by rewrite Hb|]. split; [done|].
  intros Haw actions s'. subst s'. apply Hb in Haw as Hwon.
  pose proof (steps_game_over actions s) as Hover. cbv zeta in Hover.
  destruct Hover as (Hsc & Hst & Hbo); [by rewrite Hwon|].
  by rewrite Hsc, Hst, Hbo.
Qed.

Lemma stock_bonus_once_witness :
  bonusAwarded (run (js "candy") winningTrace) = true
  ∧ score (foldl (λ s a, step a s) (run (js "candy") winningTrace) [Draw; Click 3])
    = score (run (js "candy") winningTrace).
Proof.
  assert (bonusAwarded (run (js "candy") winningTrace) = true) as Haw
    by (vm_compute; reflexivity).
  split; [exact Haw|].
  destruct (stock_bonus_once (run (js "candy") winningTrace) (reachable_run _ _))
    as (_ & _ & _ & _ & _ & _ & Hafter).
  exact (proj1 (Hafter Haw [Draw; Click 3])).
Defined.

(** ** What a clear takes off the tableau *)

Lemma clearIds_nil (t : list Slot) : clearIds [] t = t.
Proof.
  unfold clearIds. rewrite <- (list_fmap_id t) at 2.
  apply list_fmap_ext. intros _ slot _. rewrite decide_False; [done|]. apply not_elem_of_nil.
Qed.

Lemma clearIds_cons (i : nat) (ids : list nat) (t : list Slot) :
  clearIds (i :: ids) t = clearIds [i] (clearIds ids t).
Proof.
  unfold clearIds. rewrite <- list_fmap_compose.
  apply list_fmap_ext. intros _ slot _. cbn [compose].
  destruct (decide (slot_id slot ∈ ids)) as [Hin|Hin].
  - rewrite decide_True by (by right). cbn [clearSlot slot_id].
    by destruct (decide (slot_id slot ∈ [i])).
  - destruct (decide (slot_id slot = i)) as [Hi|Hi].
    + rewrite !decide_True; [done|by apply list_elem_of_singleton|rewrite Hi; by left].
    + rewrite !decide_False; [done|by rewrite list_elem_of_singleton|].
      rewrite elem_of_cons. tauto.
Qed.

Lemma cardAt_clearIds_other (ids : list nat) (t : list Slot) (i : nat) :
  layoutShaped t → i ∉ ids → cardAt (clearIds ids t) i = cardAt t i.
Proof.
  intros Ht Hi. unfold cardAt, clearIds. rewrite list_lookup_fmap.
  destruct (t !! i) as [slot|] eqn:Hs; [|done]. cbn [fmap option_fmap option_map mbind option_bind].
  destruct (layoutShaped_lookup t i slot Ht Hs) as [Hid _].
  rewrite decide_False; [done|]. by rewrite Hid.
Qed.

(** The cards of the cleared slots and the cards left make up the cards the
    tableau held. *)
Lemma tableauCards_clearIds_cards (ids : list nat) (t : list Slot) :
  layoutShaped t → NoDup ids →
  tableauCards (clearIds ids t) ++ omap (cardAt t) ids ≡ₚ tableauCards t.
Proof.
  intros Ht. induction ids as [|i ids IH]; intros Hnd.
  { rewrite clearIds_nil. cbn [omap list_omap]. by rewrite app_nil_r. }
  apply NoDup_cons in Hnd as [Hi Hnd]. specialize (IH Hnd).
  rewrite clearIds_cons.
  pose proof (clearIds_layoutShaped ids t Ht) as Ht'.
  pose proof (cardAt_clearIds_other ids t i Ht Hi) as Hcard.
  cbn [omap list_omap]. rewrite <- Hcard. rewrite <- IH.
  generalize (omap (cardAt t) ids). intros rest.
  revert Ht'. generalize (clearIds ids t). intros t' Ht'.
  unfold cardAt at 1.
  destruct (t' !! i) as [slot|] eqn:Hs; cbn [mbind option_bind].
  - destruct (layoutShaped_lookup t' i slot Ht' Hs) as [Hid _].
    destruct (slot_card slot) as [card|] eqn:Hc.
    + rewrite <- (tableauCards_clearIds_one [i] t' i slot card Hs Hc).
      * rewrite <- app_assoc. done.
      * rewrite Hid. by left.
      * intros j other Hj Hne Hin. apply list_elem_of_singleton in Hin.
        destruct (layoutShaped_lookup t' j other Ht' Hj) as [Hjid _]. congruence.
    + rewrite tableauCards_clearIds_id; [done|].
      intros other Hin Hoid. apply list_elem_of_singleton in Hoid.
      apply list_elem_of_lookup in Hin as [j Hj].
      destruct (layoutShaped_lookup t' j other Ht' Hj) as [Hjid _].
      assert (j = i) as -> by congruence. congruence.
  - rewrite tableauCards_clearIds_id; [done|].
    intros other Hin Hoid. apply list_elem_of_singleton in Hoid.
    apply list_elem_of_lookup in Hin as [j Hj].
    destruct (layoutShaped_lookup t' j other Ht' Hj) as [Hjid _].
    assert (j = i) as -> by congruence. congruence.
Qed.

Lemma getExposedIds_NoDup (t : list Slot) : layoutShaped t → NoDup (getExposedIds t).
Proof.
  intros Ht. unfold getExposedIds.
  apply (sublist_NoDup _ (slot_id <$> t)).
  - rewrite Ht. apply NoDup_seq.
  - apply fmap_sublist, sublist_filter.
Qed.

Lemma getExposedIds_card (t : list Slot) (i : nat) :
  layoutShaped t → i ∈ getExposedIds t → is_Some (cardAt t i).
Proof.
  intros Ht Hi. apply (elem_of_getExposedIds t i Ht) in Hi as (slot & Hs & He).
  apply isExposed_spec in He as [Hc _]. unfold cardAt. by rewrite Hs.
Qed.

Lemma NoDup_split_off (ids : list nat) (i : nat) :
  NoDup ids → i ∈ ids → ids ≡ₚ i :: filter (λ id, id ≠ i) ids.
Proof.
  intros Hnd Hi. apply NoDup_Permutation; [done| |].
  - apply NoDup_cons. split; [|by apply NoDup_filter].
    rewrite list_elem_of_filter. tauto.
  - intros x. rewrite elem_of_cons, list_elem_of_filter.
    destruct (decide (x = i)) as [->|]; tauto.
Qed.

Lemma length_omap_total {A B} (f : A → option B) (l : list A) :
  (∀ x, x ∈ l → is_Some (f x)) → length (omap f l) = length l.
Proof.
  induction l as [|x l IH]; intros Hall; [done|].
  cbn [omap list_omap]. destruct (Hall x) as [y ->]; [by left|].
  cbn [length]. rewrite IH; [done|]. intros ??. apply Hall. by right.
Qed.

Lemma powerupClearSet_NoDup (s : GameState) (slotId : nat) (slot : Slot) (card : Card)
    (p : Powerup) :
  layoutShaped (tableau s) → tableau s !! slotId = Some slot →
  isExposed slot (tableau s) = true →
  NoDup (powerupClearSet s slotId card p).
Proof.
  intros Ht Hi He. destruct p.
  - apply NoDup_singleton.
  - rewrite (powerupClearSet_bomb s slotId slot card Ht Hi He). apply NoDup_singleton.
  - cbn [powerupClearSet]. by apply NoDup_filter, getExposedIds_NoDup.
Qed.

Lemma powerupClearSet_occupied (s : GameState) (slotId : nat) (slot : Slot) (card : Card)
    (p : Powerup) (id : nat) :
  layoutShaped (tableau s) → tableau s !! slotId = Some slot →
  slot_card slot = Some card → isExposed slot (tableau s) = true →
  id ∈ powerupClearSet s slotId card p → is_Some (cardAt (tableau s) id).
Proof.
  intros Ht Hi Hc He Hid.
  assert (is_Some (cardAt (tableau s) slotId)) as Hcard.
  { unfold cardAt. rewrite Hi. by exists card. }
  destruct p.
  - apply list_elem_of_singleton in Hid. by rewrite Hid.
  - rewrite (powerupClearSet_bomb s slotId slot card Ht Hi He) in Hid.
    apply list_elem_of_singleton in Hid. by rewrite Hid.
  - apply list_elem_of_filter in Hid as [_ Hid]. by apply getExposedIds_card.
Qed.

Lemma powerupClearSet_others_nil (s : GameState) (slotId : nat) (slot : Slot) (card : Card)
    (p : Powerup) :
  layoutShaped (tableau s) → tableau s !! slotId = Some slot →
  isExposed slot (tableau s) = true → p ≠ rainbow →
  filter (λ id, id ≠ slotId) (powerupClearSet s slotId card p) = [].
Proof.
  intros Ht Hi He Hp.
  assert (powerupClearSet s slotId card p = [slotId]) as ->.
  { destruct p; [done| |done]. by apply (powerupClearSet_bomb s slotId slot). }
  rewrite filter_cons_False by tauto. apply filter_nil.
Qed.

Lemma powerupClearSet_rainbow (s : GameState) (slotId : nat) (card : Card) (id : nat) :
  id ∈ powerupClearSet s slotId card rainbow
  ↔ id ∈ getExposedIds (tableau s)
    ∧ ∃ c, cardAt (tableau s) id = Some c ∧ rank c = rank card.
Proof.
  unfold powerupClearSet. rewrite list_elem_of_filter. split.
  - intros [Hrank Hexp]. split; [done|].
    destruct (cardAt (tableau s) id) as [c|]; [|discriminate Hrank].
    exists c. split; [done|]. by injection Hrank.
  - intros (Hexp & c & Hcid & Hrank). split; [|done].
    rewrite Hcid. cbn [fmap option_fmap option_map]. by rewrite Hrank.
Qed.

(** A click under a powerup, card by card: the slots of the clear set are
    emptied, the clicked card goes to the waste, and the other cards of the
    clear set are in no pile afterwards.  Only the rainbow has such other
    cards: the exposed cards of the rank of the clicked one. *)
Lemma handleCardClick_powerup_cards (s : GameState) (slotId : nat) (slot : Slot)
    (card : Card) (p : Powerup) :
  layoutShaped (tableau s) → activePowerup s = Some p →
  tableau s !! slotId = Some slot → slot_card slot = Some card →
  handleCardClick slotId s ≠ s →
  let ids := powerupClearSet s slotId card p in
  let others := filter (λ id, id ≠ slotId) ids in
  let next := handleCardClick slotId s in
  tableau next = clearIds ids (tableau s)
  ∧ stock next = stock s
  ∧ waste next = waste s ++ [card]
  ∧ hold next = hold s
  ∧ cards next ++ omap (cardAt (tableau s)) others ≡ₚ cards s
  ∧ length (omap (cardAt (tableau s)) others) = length others
  ∧ (p ≠ rainbow → others = [])
  ∧ (p = rainbow →
     ∀ id, id ∈ others
           ↔ id ≠ slotId ∧ id ∈ getExposedIds (tableau s)
             ∧ ∃ c, cardAt (tableau s) id = Some c ∧ rank c = rank card).
Proof.
  intros Ht Ha Hi Hc Hne. cbv zeta.
  destruct (handleCardClick_cases slotId s)
    as [Heq|(slot' & card' & ids' & spent & _ & Hi' & Hc' & He & Hids & Hnext)]; [done|].
  assert (slot' = slot) as -> by congruence.
  assert (card' = card) as -> by congruence.
  destruct Hids as [(_ & Ha' & _)|(p' & -> & Ha' & _ & ->)]; [congruence|].
  assert (p' = p) as -> by congruence.
  pose proof (powerupClearSet_NoDup s slotId slot card p Ht Hi He) as Hnd.
  pose proof (powerupClearSet_played s slotId slot card p Ht Hi Hc He) as Hin.
  pose proof (powerupClearSet_occupied s slotId slot card p) as Hocc.
  pose proof (powerupClearSet_others_nil s slotId slot card p Ht Hi He) as Hnil.
  assert (p = rainbow →
          ∀ id, id ∈ powerupClearSet s slotId card p
                ↔ id ∈ getExposedIds (tableau s)
                  ∧ ∃ c, cardAt (tableau s) id = Some c ∧ rank c = rank card) as Hrb.
  { intros ->. apply powerupClearSet_rainbow. }
  revert Hnext Hnd Hin Hocc Hnil Hrb.
  generalize (powerupClearSet s slotId card p) as ids.
  generalize (handleCardClick slotId s) as next.
  intros next ids Hnext Hnd Hin Hocc Hnil Hrb.
  destruct (evaluateState_frame (state (applyClear s ids (Some card) (Some p))))
    as (_ & Hft & Hfs & Hfw & Hfh & _).
  destruct (applyClear_frame s ids card (Some p)) as (_ & Hat & Has & Haw & Hah & _).
  fold (clearIds ids (tableau s)) in Hat.
  rewrite <- Hnext in Hft, Hfs, Hfw, Hfh. rewrite Hat in Hft. rewrite Has in Hfs.
  rewrite Haw in Hfw. rewrite Hah in Hfh. clear Hat Has Haw Hah Hnext.
  assert (cardAt (tableau s) slotId = Some card) as Hcard.
  { unfold cardAt. by rewrite Hi. }
  split; [exact Hft|]. split; [exact Hfs|]. split; [exact Hfw|]. split; [exact Hfh|].
  split.
  { unfold cards. rewrite Hft, Hfs, Hfw, Hfh.
    rewrite <- (tableauCards_clearIds_cards ids (tableau s) Ht Hnd).
    assert (omap (cardAt (tableau s)) ids
            ≡ₚ card :: omap (cardAt (tableau s)) (filter (λ id, id ≠ slotId) ids)) as ->.
    { etrans; [apply omap_Permutation, (NoDup_split_off ids slotId Hnd Hin)|].
      cbn [omap list_omap]. by rewrite Hcard. }
    generalize (tableauCards (clearIds ids (tableau s))),
      (omap (cardAt (tableau s)) (filter (λ id, id ≠ slotId) ids)),
      (option_list (hold s)).
    intros l1 l2 l3. solve_Permutation. }
  split.
  { apply length_omap_total. intros id Hid.
    apply list_elem_of_filter in Hid as [_ Hid]. by apply Hocc. }
  split; [exact Hnil|].
  intros Hp id. rewrite list_elem_of_filter, (Hrb Hp). tauto.
Qed.

Lemma clearIds_ext (ids1 ids2 : list nat) (t : list Slot) :
  (∀ id, id ∈ ids1 ↔ id ∈ ids2) → clearIds ids1 t = clearIds ids2 t.
Proof.
  intros Hext. unfold clearIds. apply list_fmap_ext. intros _ slot _.
  destruct (decide (slot_id slot ∈ ids1)) as [Hin|Hin].
  - rewrite decide_True; [done|]. by apply Hext.
  - rewrite decide_False; [done|]. by rewrite <- Hext.
Qed.

(** C1, amended.  In every reachable state the cards on the tableau, the
    stock, the waste and the hold are pairwise distinct cards of the 52-card
    deck; right after the deal they are the whole deck; no transition adds a
    card, and every transition other than a click under the rainbow powerup
    keeps the cards exactly (the bomb included: an exposed card has no exposed
    neighbour).  A click under the rainbow that is not rejected empties the
    slot clicked and the other exposed slots whose card has the rank of the
    clicked one, puts the clicked card, and no other, on the waste, and
    leaves stock and hold alone: the cards afterwards, together with the
    cards of those other slots, are the cards before, so the state holds as
    many cards fewer as there are such slots, and none fewer when there is
    none. *)
Theorem cards_reachable (s : GameState) :
  reachable s →
  NoDup (cards s)
  ∧ cards s ⊆+ createDeck
  ∧ (∀ seed h, cards (createGameState seed h).1 ≡ₚ createDeck)
  ∧ (∀ a, cards (step a s) ⊆+ cards s)
  ∧ (∀ a, (∀ slotId, a = Click slotId → activePowerup s ≠ Some rainbow) →
          cards (step a s) ≡ₚ cards s)
  ∧ (∀ slotId slot card,
       activePowerup s = Some rainbow →
       tableau s !! slotId = Some slot → slot_card slot = Some card →
       step (Click slotId) s ≠ s →
       let others :=
         filter (λ id, id ≠ slotId) (powerupClearSet s slotId card rainbow) in
       let next := step (Click slotId) s in
       (∀ id, id ∈ others
              ↔ id ≠ slotId ∧ id ∈ getExposedIds (tableau s)
                ∧ ∃ c, cardAt (tableau s) id = Some c ∧ rank c = rank card)
       ∧ tableau next = clearIds (slotId :: others) (tableau s)
       ∧ stock next = stock s
       ∧ waste next = waste s ++ [card]
       ∧ hold next = hold s
       ∧ cards next ++ omap (cardAt (tableau s)) others ≡ₚ cards s
       ∧ (length (cards next) + length others = length (cards s))%nat
       ∧ (others = [] → cards next ≡ₚ cards s)).
Proof.
  intros Hs. pose proof (reachable_layoutShaped s Hs) as Ht.
  pose proof (reachable_cards_sub s Hs) as Hsub.
  split; [by eapply NoDup_submseteq_l, createDeck_NoDup|].
  split; [done|]. split.
  { intros seed h. rewrite createGameState_cards. apply shuffledDeck_Permutation. }
  split; [intros a; by apply step_cards_sub|].
  split.
  { intros [slotId| | |enabled|p] Ha; cbn [step].
    - apply handleCardClick_cards; [done|]. by apply (Ha slotId).
    - apply drawFromStock_cards.
    - apply useHold_cards.
    - by rewrite toggleWrap_cards.
    - by rewrite togglePowerup_cards. }
  intros slotId slot card Ha Hi Hc Hne. cbn [step] in *.
  pose proof (handleCardClick_powerup_cards s slotId slot card rainbow Ht Ha Hi Hc Hne)
    as Hclick.
  cbv zeta in Hclick. cbv zeta.
  destruct (handleCardClick_cases slotId s)
    as [Heq|(slot' & card' & _ & _ & _ & Hi' & Hc' & He & _)]; [done|].
  assert (slot' = slot) as -> by congruence.
  pose proof (powerupClearSet_played s slotId slot card rainbow Ht Hi Hc He) as Hin.
  revert Hclick Hin.
  generalize (powerupClearSet s slotId card rainbow) as ids.
  generalize (handleCardClick slotId s) as next.
  intros next ids (Htab & Hstock & Hwaste & Hhold & Hcards & Hlen & _ & Hrb) Hin.
  split; [by apply Hrb|].
  split.
  { rewrite Htab. apply clearIds_ext. intros id.
    rewrite elem_of_cons, list_elem_of_filter.
    destruct (decide (id = slotId)) as [->|]; tauto. }
  split; [done|]. split; [done|]. split; [done|]. split; [done|].
  split.
  { apply Permutation_length in Hcards. rewrite length_app, Hlen in Hcards. done. }
  intros Hnil. rewrite Hnil in Hcards. cbn [omap list_omap] in Hcards.
  by rewrite app_nil_r in Hcards.
Qed.

Lemma cards_reachable_witness :
  NoDup (cards (run (js "d") rainbowTrace)).
Proof.
  apply (cards_reachable (run (js "d") rainbowTrace)). apply reachable_run.
Defined.

(** ** Exposure on the layout, and the end of the stock *)

(** The slots covering a slot have smaller ids. *)
Lemma parentsOf_lt (i p : nat) : (i < 28)%nat → p ∈ parentsOf i → (p < i)%nat.
Proof.
  assert (forallb (λ i, forallb (λ p, bool_decide (p < i)%nat) (parentsOf i)) (seq 0 28)
          = true) as Hall by (vm_compute; reflexivity).
  intros Hi Hp. rewrite forallb_forall in Hall.
  specialize (Hall i). rewrite <- list_elem_of_In, elem_of_seq in Hall.
  specialize (Hall ltac:(lia)). rewrite forallb_forall in Hall.
  apply list_elem_of_In, Hall in Hp. by apply bool_decide_eq_true in Hp.
Qed.

Lemma tableauCleared_spec (t : list Slot) :
  tableauCleared t = true ↔ ∀ slot, slot ∈ t → slot_card slot = None.
Proof.
  unfold tableauCleared. rewrite forallb_forall. split.
  - intros Hall slot Hin. apply list_elem_of_In, Hall in Hin.
    apply negb_true_iff, bool_decide_eq_false in Hin. by apply eq_None_not_Some.
  - intros Hall slot Hin. apply list_elem_of_In, Hall in Hin.
    apply negb_true_iff, bool_decide_eq_false. by rewrite Hin, <- eq_None_not_Some.
Qed.

(** A tableau without cards exposes nothing. *)
Lemma tableauCleared_exposed (t : list Slot) :
  tableauCleared t = true → getExposedIds t = [].
Proof.
  rewrite tableauCleared_spec. intros Hall. unfold getExposedIds.
  destruct (filter _ t) as [|slot l] eqn:Hf; [done|]. exfalso.
  assert (slot ∈ filter (λ slot, isExposed slot t = true) t) as Hin
    by (rewrite Hf; by left).
  apply list_elem_of_filter in Hin as [He Hin].
  apply isExposed_spec in He as [[c Hc] _]. rewrite (Hall slot Hin) in Hc. discriminate.
Qed.

Lemma forallb_false_exists {A} (f : A → bool) (l : list A) :
  forallb f l = false → ∃ x, x ∈ l ∧ f x = false.
Proof.
  induction l as [|x l IH]; cbn [forallb]; [discriminate|].
  destruct (f x) eqn:Hx; cbn [andb].
  - intros Hl. destruct (IH Hl) as (y & Hy & Hfy). exists y. split; [by right|done].
  - intros _. exists x. split; [by left|done].
Qed.

Lemma isExposed_false (slot : Slot) (t : list Slot) :
  is_Some (slot_card slot) → isExposed slot t = false →
  ∃ p, p ∈ parentsOf (slot_id slot) ∧ is_Some (cardAt t p).
Proof.
  intros [c Hc] He. unfold isExposed in He. rewrite Hc in He.
  apply forallb_false_exists in He as (p & Hp & Hcov).
  exists p. split; [done|]. by apply negb_false_iff, bool_decide_eq_true in Hcov.
Qed.

(** A tableau of the layout that still holds a card exposes one: the card
    with the smallest id has nothing above it. *)
Lemma layoutShaped_exposes (t : list Slot) :
  layoutShaped t → tableauCleared t = false → getExposedIds t ≠ [].
Proof.
  intros Ht Hc.
  assert (∀ n i slot, (i < n)%nat → t !! i = Some slot → is_Some (slot_card slot) →
                      ∃ j, j ∈ getExposedIds t) as Hleast.
  { induction n as [|n IH]; intros i slot Hi Hs Hcard; [lia|].
    destruct (isExposed slot t) eqn:He.
    - exists i. apply elem_of_getExposedIds; [done|]. by exists slot.
    - destruct (isExposed_false slot t Hcard He) as (p & Hp & Hpc).
      destruct (layoutShaped_lookup t i slot Ht Hs) as [Hid Hlt]. rewrite Hid in Hp.
      pose proof (parentsOf_lt i p Hlt Hp) as Hpi.
      unfold cardAt in Hpc. destruct (t !! p) as [above|] eqn:Hps.
      + apply (IH p above); [lia|done|done].
      + by destruct Hpc. }
  apply forallb_false_exists in Hc as (slot & Hin & Hcard).
  apply negb_false_iff, bool_decide_eq_true in Hcard.
  apply list_elem_of_lookup in Hin as [i Hs].
  destruct (Hleast (S i) i slot ltac:(lia) Hs Hcard) as [j Hj].
  intros Hnil. rewrite Hnil in Hj. by apply elem_of_nil in Hj.
Qed.

(** On a tableau of the layout, nothing exposed means nothing left. *)
Lemma layoutShaped_exposed_nil (t : list Slot) :
  layoutShaped t → getExposedIds t = [] ↔ tableauCleared t = true.
Proof.
  intros Ht. split; [|apply tableauCleared_exposed].
  intros Hnil. destruct (tableauCleared t) eqn:Hc; [done|].
  by destruct (layoutShaped_exposes t Ht Hc).
Qed.

(** The two tests behind a loss on an empty stock. *)
Lemma evaluateState_stuck (s : GameState) :
  status s = playing → tableauCleared (tableau s) = false → stock s = [] →
  getExposedIds (tableau s) ≠ [] →
  (status (evaluateState s) = lost
   ↔ (activePowerup s = None
      ∧ inv_wild (powerups s) + inv_bomb (powerups s) + inv_rainbow (powerups s) ≤ 0)
     ∧ ∀ top id c, last (waste s) = Some top → id ∈ getExposedIds (tableau s) →
                   cardAt (tableau s) id = Some c →
                   isAdjacentRank (rank c) (rank top) (wrapEnabled s) = false)
  ∧ (status (evaluateState s) = lost ∨ evaluateState s = s).
Proof.
  intros Hp Hc Hs Hex. unfold evaluateState. rewrite Hp, Hc, Hs.
  rewrite (bool_decide_eq_true_2 (playing = playing)) by done.
  rewrite (bool_decide_eq_true_2 (length [] = 0%nat)) by done.
  rewrite (bool_decide_eq_false_2 (length (getExposedIds (tableau s)) = 0%nat))
    by (by destruct (getExposedIds (tableau s))).
  cbn [negb]. cbv zeta.
  generalize dependent (getExposedIds (tableau s)). intros exposedIds _.
  assert (bool_decide (activePowerup s ≠ None)
          || (inv_wild (powerups s) + inv_bomb (powerups s) + inv_rainbow (powerups s) >? 0)
          = false
          ↔ activePowerup s = None
            ∧ inv_wild (powerups s) + inv_bomb (powerups s) + inv_rainbow (powerups s) ≤ 0)
    as Hpow.
  { rewrite orb_false_iff, bool_decide_eq_false, Z.gtb_ltb, Z.ltb_ge.
    destruct (activePowerup s) as [p|].
    - split; intros [H1 H2]; [exfalso; by apply H1|done].
    - split; intros [H1 H2]; (split; [|done]); [done|by intros ?]. }
  assert (match last (waste s) with
          | Some top =>
              existsb (λ id, match cardAt (tableau s) id with
                             | Some card =>
                                 isAdjacentRank (rank card) (rank top) (wrapEnabled s)
                             | None => false
                             end) exposedIds
          | None => false
          end = false
          ↔ ∀ top id c, last (waste s) = Some top → id ∈ exposedIds →
                        cardAt (tableau s) id = Some c →
                        isAdjacentRank (rank c) (rank top) (wrapEnabled s) = false)
    as Hplay.
  { destruct (last (waste s)) as [top|]; [|split; [intros _ ????; discriminate|done]].
    split.
    - intros Hno top' id c [= <-] Hid Hcard.
      destruct (isAdjacentRank (rank c) (rank top) (wrapEnabled s)) eqn:Hadj; [|done].
      rewrite <- not_true_iff_false in Hno. exfalso. apply Hno.
      apply existsb_exists. exists id. split; [by apply list_elem_of_In|].
      by rewrite Hcard.
    - intros Hall. apply not_true_iff_false. intros Hyes.
      apply existsb_exists in Hyes as (id & Hid & Hadj).
      destruct (cardAt (tableau s) id) as [c|] eqn:Hcard; [|discriminate].
      rewrite (Hall top id c eq_refl) in Hadj; [discriminate|by apply list_elem_of_In|done]. }
  revert Hpow Hplay.
  generalize (bool_decide (activePowerup s ≠ None)
              || (inv_wild (powerups s) + inv_bomb (powerups s)
                  + inv_rainbow (powerups s) >? 0)) as hasPowerup.
  generalize (match last (waste s) with
          | Some top =>
              existsb (λ id, match cardAt (tableau s) id with
                             | Some card =>
                                 isAdjacentRank (rank card) (rank top) (wrapEnabled s)
                             | None => false
                             end) exposedIds
          | None => false
          end) as canPlay.
  intros canPlay hasPowerup Hpow Hplay. rewrite <- Hpow, <- Hplay.
  destruct hasPowerup, canPlay; cbn [negb andb with_status status]; rewrite ?Hp;
    (split; [split; [intros; try discriminate; by split|by intros [? ?]]|]); auto.
Qed.


(** The winning line of play on the default deal, held back before its last
    click until the stock is used up, with the rainbow selected for the last
    card. *)
Definition stockOutTrace : list Action :=
  take 39 winningTrace ++ replicate 16 Draw ++ [SelectPowerup rainbow].

(** The state that play reaches: one card left, on slot 26, no stock. *)
Definition lastCardState : GameState := run (js "candy") stockOutTrace.

(** What the click on that card hands to the evaluation. *)
Definition lastCardCleared : GameState :=
  state (applyClear lastCardState [26%nat] (Some (mkCard "H3" 3 Suit.H)) (Some rainbow)).

(** C3, as stated, fails: with the stock empty and no position exposed the
    evaluation declares the game won, here on the state a real play hands
    to it. *)
Lemma evaluateState_last_card_wins :
  reachable lastCardState
  ∧ handleCardClick 26 lastCardState = evaluateState lastCardCleared
  ∧ status lastCardCleared = playing
  ∧ stock lastCardCleared = []
  ∧ getExposedIds (tableau lastCardCleared) = []
  ∧ status (evaluateState lastCardCleared) = won
  ∧ status (evaluateState lastCardCleared) ≠ lost.
Proof.
  split; [apply reachable_run|].
  repeat split; vm_compute; (reflexivity || discriminate).
Qed.

(** C3, amended.  On a playing state with an empty stock and a tableau of
    the layout, no position is exposed exactly when no card is left, and the
    evaluation then declares the game won, whatever the inventory, the active
    powerup and the waste are; the score is unchanged, the stock bonus being
    zero.  While a card is left some position is exposed, and the evaluation
    declares the game lost exactly when no powerup is active, none is in the
    inventory, and no exposed card has a rank adjacent to the waste top;
    otherwise it leaves the state alone. *)
Theorem evaluateState_empty_stock (s : GameState) :
  layoutShaped (tableau s) → status s = playing → stock s = [] →
  (getExposedIds (tableau s) = [] ↔ tableauCleared (tableau s) = true)
  ∧ (getExposedIds (tableau s) = [] →
     status (evaluateState s) = won
     ∧ status (evaluateState s) ≠ lost
     ∧ score (evaluateState s) = score s
     ∧ bonusAwarded (evaluateState s) = true)
  ∧ (getExposedIds (tableau s) ≠ [] →
     (status (evaluateState s) = lost
      ↔ (activePowerup s = None
         ∧ inv_wild (powerups s) + inv_bomb (powerups s) + inv_rainbow (powerups s) ≤ 0)
        ∧ ∀ top id c, last (waste s) = Some top → id ∈ getExposedIds (tableau s) →
                      cardAt (tableau s) id = Some c →
                      isAdjacentRank (rank c) (rank top) (wrapEnabled s) = false)
     ∧ (status (evaluateState s) = lost ∨ evaluateState s = s)).
Proof.
  intros Ht Hp Hs.
  pose proof (layoutShaped_exposed_nil (tableau s) Ht) as Hnil.
  split; [done|]. split.
  - intros Hex. apply Hnil in Hex.
    destruct (evaluateState_spec s)
      as [[Hnp _]|[(_ & _ & _ & ->)|[(_ & _ & Hb & ->)|(_ & Hc & _)]]];
      [done| | |congruence]; cbn [with_bonus with_status status score bonusAwarded].
    + rewrite Hs. cbn [length]. repeat split; [discriminate|lia].
    + repeat split; [discriminate|done].
  - intros Hex. apply evaluateState_stuck; try done.
    destruct Hnil as [_ Hn].
    destruct (tableauCleared (tableau s)); [|done].
    exfalso. by apply Hex, Hn.
Qed.

Lemma evaluateState_empty_stock_witness :
  status (evaluateState lastCardCleared) = won.
Proof.
  assert (layoutShaped (tableau lastCardCleared)) as Ht by (vm_compute; reflexivity).
  assert (status lastCardCleared = playing) as Hp by (vm_compute; reflexivity).
  assert (stock lastCardCleared = []) as Hs by (vm_compute; reflexivity).
  assert (getExposedIds (tableau lastCardCleared) = []) as Hex by (vm_compute; reflexivity).
  destruct (evaluateState_empty_stock lastCardCleared Ht Hp Hs) as (_ & Hwon & _).
  exact (proj1 (Hwon Hex)).
Defined.

(** ** Powerup plays and the waste *)






Lemma clearIds_lookup_kept (ids : list nat) (t : list Slot) (i : nat) (slot : Slot) :
  t !! i = Some slot → slot_id slot ∉ ids → clearIds ids t !! i = Some slot.
Proof.
  intros Hi Hin. unfold clearIds. rewrite list_lookup_fmap, Hi.
  cbn [fmap option_fmap option_map]. by rewrite decide_False.
Qed.

(** A click under a powerup in stock, on an exposed card, whatever the waste
    holds. *)
Lemma handleCardClick_powerup (s : GameState) (slotId : nat) (slot : Slot) (card : Card)
    (k : Powerup) :
  status s = playing → activePowerup s = Some k → 1 ≤ inv_get (powerups s) k →
  tableau s !! slotId = Some slot → slot_card slot = Some card →
  isExposed slot (tableau s) = true →
  handleCardClick slotId s
  = evaluateState (state (applyClear s (powerupClearSet s slotId card k) (Some card) (Some k))).
Proof.
  intros Hp Ha Hk Hs Hc He. unfold handleCardClick.
  rewrite Hp, Hs, Hc, He, Ha.
  rewrite (bool_decide_eq_true_2 (playing = playing)) by done. cbn [negb].
  destruct (Z.leb_spec (inv_get (powerups s) k) 0); [lia|done].
Qed.


(** The default deal at the moment the winning line of play has selected its
    first wild: the 8 of diamonds lies exposed on slot 8, an ace on the
    waste. *)
Definition wildSelected : GameState := run (js "candy") (take 19 winningTrace).


(** * Further properties of the engine *)

(** ** The shuffle *)

(** X1.  The shuffle rearranges the deck it is given, whatever the generator
    hands out: the result is a permutation of the input, of the same
    length. *)
Theorem shuffle_permutes (deck : list Card) (rng : nat) (h : Heap) :
  (shuffle deck rng h).1 ≡ₚ deck
  ∧ length (shuffle deck rng h).1 = length deck.
Proof.
  assert ((shuffle deck rng h).1 ≡ₚ deck) as Hp
    by (unfold shuffle; apply shuffle_from_Permutation).
  split; [done|]. by apply Permutation_length.
Qed.


(** ** Draw *)

Lemma drawFromStock_fields (s : GameState) (drawn : Card) :
  status s = playing → last (stock s) = Some drawn →
  stock (drawFromStock s) = removelast (stock s)
  ∧ waste (drawFromStock s) = waste s ++ [drawn]
  ∧ combo (drawFromStock s) = 0
  ∧ activePowerup (drawFromStock s) = None
  ∧ tableau (drawFromStock s) = tableau s
  ∧ hold (drawFromStock s) = hold s
  ∧ powerups (drawFromStock s) = powerups s
  ∧ powerupCycle (drawFromStock s) = powerupCycle s
  ∧ wrapEnabled (drawFromStock s) = wrapEnabled s.
Proof.
  intros Hp Hl. unfold drawFromStock. rewrite Hp, Hl.
  rewrite (bool_decide_eq_true_2 (playing = playing)) by done. cbn [negb].
  match goal with |- context [evaluateState ?x] =>
    destruct (evaluateState_frame x)
      as (_ & -> & -> & -> & -> & -> & -> & -> & -> & ->) end.
  done.
Qed.

(** X3.  A draw is carried out exactly when the game is on and the stock is
    not empty.  It then moves the top of the stock to the top of the waste,
    resets the combo, deselects the powerup, and touches nothing else but,
    through the evaluation, the status. *)
Theorem drawFromStock_spec (s : GameState) :
  (drawFromStock s ≠ s ↔ status s = playing ∧ stock s ≠ [])
  ∧ (∀ drawn, status s = playing → last (stock s) = Some drawn →
       stock (drawFromStock s) = removelast (stock s)
       ∧ stock s = stock (drawFromStock s) ++ [drawn]
       ∧ waste (drawFromStock s) = waste s ++ [drawn]
       ∧ combo (drawFromStock s) = 0
       ∧ activePowerup (drawFromStock s) = None
       ∧ tableau (drawFromStock s) = tableau s
       ∧ hold (drawFromStock s) = hold s
       ∧ powerups (drawFromStock s) = powerups s
       ∧ powerupCycle (drawFromStock s) = powerupCycle s
       ∧ wrapEnabled (drawFromStock s) = wrapEnabled s).
Proof.
  split.
  - split.
    + intros Hne. unfold drawFromStock in Hne.
      destruct (decide (status s = playing)) as [Hp|Hp];
        [|by rewrite bool_decide_eq_false_2 in Hne].
      split; [done|]. intros Hnil. rewrite Hnil in Hne. cbn [last] in Hne.
      by destruct (negb _).
    + intros [Hp Hne] Heq.
      destruct (last (stock s)) as [drawn|] eqn:Hl.
      * destruct (drawFromStock_fields s drawn Hp Hl) as (Hst & _). rewrite Heq in Hst.
        apply last_removelast in Hl. rewrite Hst in Hl at 1.
        apply (f_equal length) in Hl. rewrite length_app in Hl. cbn [length] in Hl. lia.
      * by apply last_None in Hl.
  - intros drawn Hp Hl. destruct (drawFromStock_fields s drawn Hp Hl) as (Hst & Hrest).
    split; [done|]. split; [|done]. rewrite Hst. by apply last_removelast.
Qed.

(** ** Hold *)

Lemma useHold_fields (s : GameState) (top : Card) :
  status s = playing → last (waste s) = Some top →
  hold (useHold s) = Some top
  ∧ waste (useHold s) = removelast (waste s) ++ option_list (hold s)
  ∧ combo (useHold s) = 0
  ∧ activePowerup (useHold s) = None
  ∧ tableau (useHold s) = tableau s
  ∧ stock (useHold s) = stock s
  ∧ powerups (useHold s) = powerups s
  ∧ powerupCycle (useHold s) = powerupCycle s
  ∧ wrapEnabled (useHold s) = wrapEnabled s.
Proof.
  intros Hp Hl. unfold useHold. rewrite Hp, Hl.
  rewrite (bool_decide_eq_true_2 (playing = playing)) by done. cbn [negb].
  match goal with |- context [evaluateState ?x] =>
    destruct (evaluateState_frame x)
      as (_ & -> & -> & -> & -> & -> & -> & -> & -> & ->) end.
  cbn [hold waste combo activePowerup tableau stock powerups powerupCycle wrapEnabled].
  repeat split; try done. destruct (hold s) as [held|].
  - done.
  - change (option_list None) with (@nil Card). by rewrite app_nil_r.
Qed.

(** X4.  A hold on a playing state with a card on the waste takes the waste
    top into the hold and puts the card held before, if any, in its place,
    resets the combo, deselects the powerup and leaves tableau, stock and
    inventory alone.  With a card in the hold, two holds in a row, the game
    still on in between, put the waste and the hold back as they were. *)
Theorem useHold_spec (s : GameState) (top : Card) :
  status s = playing → last (waste s) = Some top →
  hold (useHold s) = Some top
  ∧ waste (useHold s) = removelast (waste s) ++ option_list (hold s)
  ∧ combo (useHold s) = 0
  ∧ activePowerup (useHold s) = None
  ∧ tableau (useHold s) = tableau s
  ∧ stock (useHold s) = stock s
  ∧ powerups (useHold s) = powerups s
  ∧ (∀ held, hold s = Some held → status (useHold s) = playing →
       waste (useHold (useHold s)) = waste s
       ∧ hold (useHold (useHold s)) = hold s).
Proof.
  intros Hp Hl.
  destruct (useHold_fields s top Hp Hl) as (Hh & Hw & Hc & Ha & Ht & Hs & Hi & _).
  repeat (split; [done|]).
  intros held Hheld Hp1. rewrite Hheld in Hw.
  change (option_list (Some held)) with [held] in Hw.
  assert (last (waste (useHold s)) = Some held) as Hl1 by (rewrite Hw; apply last_snoc).
  destruct (useHold_fields (useHold s) held Hp1 Hl1) as (Hh2 & Hw2 & _).
  rewrite Hh2, Hheld. split; [|done].
  rewrite Hw2, Hh, Hw.
  change (option_list (Some top)) with [top]. rewrite removelast_last.
  symmetry. by apply last_removelast.
Qed.

(** The default deal after a hold and a draw: the 2 of clubs in the hold,
    the 6 of hearts on the waste. *)
Definition heldAndDrawn : GameState := run (js "candy") [Hold; Draw].

Lemma useHold_spec_witness :
  waste (useHold (useHold heldAndDrawn)) = waste heldAndDrawn.
Proof.
  assert (status heldAndDrawn = playing) as Hp by (vm_compute; reflexivity).
  assert (last (waste heldAndDrawn) = Some (mkCard "H6" 6 Suit.H)) as Hl
    by (vm_compute; reflexivity).
  assert (hold heldAndDrawn = Some (mkCard "C2" 2 Suit.C)) as Hh
    by (vm_compute; reflexivity).
  assert (status (useHold heldAndDrawn) = playing) as Hp1 by (vm_compute; reflexivity).
  destruct (useHold_spec heldAndDrawn (mkCard "H6" 6 Suit.H) Hp Hl)
    as (_ & _ & _ & _ & _ & _ & _ & Hround).
  exact (proj1 (Hround (mkCard "C2" 2 Suit.C) Hh Hp1)).
Defined.

(** ** Toggles *)

Lemma with_wrapEnabled_id (s : GameState) : with_wrapEnabled (wrapEnabled s) s = s.
Proof. by destruct s. Qed.


(** X5.  The wrap toggle sets the flag and nothing else, in any status, the
    terminal ones included, and without evaluating the state; setting it
    twice is setting it once, and setting it back undoes it. *)
Theorem toggleWrap_spec (enabled : bool) (s : GameState) :
  toggleWrap enabled s = with_wrapEnabled enabled s
  ∧ wrapEnabled (toggleWrap enabled s) = enabled
  ∧ status (toggleWrap enabled s) = status s
  ∧ toggleWrap enabled (toggleWrap enabled s) = toggleWrap enabled s
  ∧ toggleWrap (wrapEnabled s) (toggleWrap enabled s) = s.
Proof.
  assert (∀ b x, toggleWrap b x = with_wrapEnabled b x) as Heq.
  { intros b x. unfold toggleWrap.
    destruct (decide (wrapEnabled x = b)) as [<-|Hne].
    - rewrite bool_decide_eq_true_2 by done. by rewrite with_wrapEnabled_id.
    - by rewrite bool_decide_eq_false_2. }
  rewrite !Heq. repeat split. by destruct s.
Qed.



(** ** After the end *)



(** X8.  While the stock holds a card and the tableau holds a card the
    evaluation changes nothing: a game is never declared lost with stock
    left. *)
Theorem evaluateState_stock_left (s : GameState) :
  tableauCleared (tableau s) = false → stock s ≠ [] →
  evaluateState s = s.
Proof.
  intros Hc Hs. unfold evaluateState. rewrite Hc.
  destruct (negb (bool_decide (status s = playing))); [done|].
  rewrite bool_decide_eq_false_2; [done|]. by destruct (stock s).
Qed.

Lemma evaluateState_stock_left_witness :
  evaluateState (Deal (js "candy")) = Deal (js "candy").
Proof.
  assert (tableauCleared (tableau (Deal (js "candy"))) = false) as Hc
    by (vm_compute; reflexivity).
  assert (stock (Deal (js "candy")) ≠ []) as Hs by (vm_compute; discriminate).
  exact (evaluateState_stock_left (Deal (js "candy")) Hc Hs).
Defined.

(** ** The bomb and the layout *)

(** The deal of the default seed has the 2 of spades on the first peak. *)
Lemma Deal_candy_peak :
  tableau (Deal (js "candy")) !! 0%nat = Some (mkSlot 0 0 4 (Some (mkCard "S2" 2 Suit.S)))
  ∧ isExposed (mkSlot 0 0 4 (Some (mkCard "S2" 2 Suit.S))) (tableau (Deal (js "candy")))
    = true.
Proof. split; vm_compute; reflexivity. Qed.

(** X9.  In a play from a deal the bomb clears the clicked card and nothing
    else: the neighbours of a slot are the slots directly above and below
    it, and of two such slots one covers the other, so no neighbour of an
    exposed card is exposed. *)
Theorem bomb_clears_clicked_only (s : GameState) (slotId : nat) (slot : Slot)
    (card : Card) :
  reachable s → tableau s !! slotId = Some slot →
  isExposed slot (tableau s) = true →
  filter (λ id, id ∈ getExposedIds (tableau s)) (adjacentTo slotId) = []
  ∧ powerupClearSet s slotId card bomb = [slotId].
Proof.
  intros Hs Hi He. pose proof (reachable_layoutShaped s Hs) as Ht.
  split.
  - by apply (exposed_neighbors_nil (tableau s) slotId slot).
  - by apply (powerupClearSet_bomb s slotId slot).
Qed.

Lemma bomb_clears_clicked_only_witness :
  powerupClearSet (Deal (js "candy")) 0 (mkCard "S2" 2 Suit.S) bomb = [0%nat].
Proof.
  destruct Deal_candy_peak as [Hi He].
  exact (proj2 (bomb_clears_clicked_only (Deal (js "candy")) 0
                  (mkSlot 0 0 4 (Some (mkCard "S2" 2 Suit.S))) (mkCard "S2" 2 Suit.S)
                  (reachable_deal (js "candy") []) Hi He)).
Defined.

(** ** What the deal exposes *)

Lemma createGameState_full (seed : jsstring) (h : Heap) (i : nat) (slot : Slot) :
  tableau (createGameState seed h).1 !! i = Some slot → is_Some (slot_card slot).
Proof.
  pose proof (createGameState_shuffled seed h) as Hs. cbv zeta in Hs. rewrite Hs.
  pose proof (shuffledDeck_length seed h) as Hlen.
  generalize dependent (shuffledDeck seed h). intros deck _ Hlen.
  cbn [tableau]. rewrite list_lookup_imap.
  pose proof LAYOUT_length as Hl. revert Hl. generalize LAYOUT. intros layout Hl.
  destruct (layout !! i) as [pos|] eqn:Hpos; [|discriminate].
  cbn [fmap option_fmap option_map]. intros [= <-]. cbn [slot_card].
  apply lookup_lt_is_Some_2. apply lookup_lt_Some in Hpos. lia.
Qed.

Lemma fmap_filter_slot_id (P : nat → Prop) `{!∀ x, Decision (P x)}
    (Q : Slot → Prop) `{!∀ x, Decision (Q x)} (t : list Slot) :
  (∀ slot, slot ∈ t → Q slot ↔ P (slot_id slot)) →
  slot_id <$> filter Q t = filter P (slot_id <$> t).
Proof.
  induction t as [|slot t IH]; intros Hiff; [done|].
  cbn [fmap list_fmap]. rewrite !filter_cons.
  pose proof (Hiff slot ltac:(by left)) as Hslot.
  rewrite <- IH by (intros ??; apply Hiff; by right).
  destruct (decide (Q slot)), (decide (P (slot_id slot))); tauto || done.
Qed.

Lemma peaks_uncovered : filter (λ id, parentsOf id = []) (seq 0 28) = [0; 1; 2]%nat.
Proof. vm_compute. reflexivity. Qed.

(** X10.  Whatever the seed, the deal exposes the three peaks, slots 0, 1
    and 2, and nothing else: every slot holds a card, and every slot but the
    peaks has a slot above it. *)
Theorem deal_exposes_peaks (seed : jsstring) (h : Heap) :
  getExposedIds (tableau (createGameState seed h).1) = [0; 1; 2]%nat.
Proof.
  pose proof (createGameState_layoutShaped seed h) as Ht.
  pose proof (createGameState_full seed h) as Hfull.
  revert Ht Hfull. generalize (tableau (createGameState seed h).1). intros t Ht Hfull.
  unfold getExposedIds.
  rewrite (fmap_filter_slot_id (λ id, parentsOf id = [])).
  - rewrite Ht. apply peaks_uncovered.
  - intros slot Hin. apply list_elem_of_lookup in Hin as [i Hi].
    destruct (layoutShaped_lookup t i slot Ht Hi) as [Hid Hlt].
    rewrite isExposed_spec, Hid. split.
    + intros [_ Hpar]. destruct (parentsOf i) as [|p l] eqn:Hp; [done|]. exfalso.
      assert (p ∈ parentsOf i) as Hpin by (rewrite Hp; by left).
      pose proof (parentsOf_lt i p Hlt Hpin) as Hpi.
      specialize (Hpar p ltac:(by left)).
      destruct (lookup_lt_is_Some_2 t p) as [above Ha];
        [rewrite (layoutShaped_length t Ht); lia|].
      destruct (Hfull p above Ha) as [c Hc].
      unfold cardAt in Hpar. rewrite Ha in Hpar. cbn [mbind option_bind] in Hpar.
      congruence.
    + intros Hp. split; [by apply (Hfull i)|]. rewrite Hp. clear Hp. intros p Hpin.
      exfalso. exact (not_elem_of_nil p Hpin).
Qed.

(** ** Counters and inventory along a play *)

Lemma addUnits_ge (kinds : list Powerup) (inv : Inventory) (p : Powerup) :
  inv_get inv p ≤ inv_get (addUnits inv kinds) p.
Proof.
  revert inv. induction kinds as [|k kinds IH]; intros inv; [done|].
  cbn [addUnits foldl]. etrans; [|apply IH].
  destruct k, p; cbn [inv_set inv_get inv_wild inv_bomb inv_rainbow]; lia.
Qed.

Lemma scoreGain_closed (n c : Z) :
  round (inject_Z n * inject_Z BASE_POINTS * getComboMultiplier c)
  = n * 50 * (if c <? 3 then 2 else if c <? 6 then 3 else if c <? 9 then 4
              else if c <? 12 then 5 else 6).
Proof.
  assert (∀ k, (getComboMultiplier c == k # 2)%Q →
               round (inject_Z n * inject_Z BASE_POINTS * getComboMultiplier c)
               = n * 50 * k) as Hk.
  { intros k Heq. unfold round. rewrite Heq. apply round_half_integer. }
  pose proof (getComboMultiplier_table c) as Ht. unfold multiplierTable in Ht.
  destruct (c <? 3); [apply Hk; by rewrite Ht|].
  destruct (c <? 6); [apply Hk; by rewrite Ht|].
  destruct (c <? 9); [apply Hk; by rewrite Ht|].
  destruct (c <? 12); [apply Hk; by rewrite Ht|].
  apply Hk; by rewrite Ht.
Qed.

Lemma scoreGain_nonneg (n c : Z) :
  0 ≤ n → 0 ≤ round (inject_Z n * inject_Z BASE_POINTS * getComboMultiplier c).
Proof.
  intros Hn. rewrite scoreGain_closed. repeat case_match; lia.
Qed.

Lemma evaluateState_score_le (s : GameState) : score s ≤ score (evaluateState s).
Proof.
  rewrite evaluateState_score. unfold STOCK_BONUS. case_match; lia.
Qed.

(** X11.  No transition lowers the score. *)
Theorem step_score_le (a : Action) (s : GameState) : score s ≤ score (step a s).
Proof.
  destruct a as [slotId| | |enabled|p]; cbn [step].
  - destruct (handleCardClick_cases slotId s)
      as [->|(slot & card & ids & spent & _ & _ & _ & _ & _ & ->)]; [done|].
    etrans; [|apply evaluateState_score_le].
    destruct (applyClear_combo_score s ids card spent) as [_ ->].
    pose proof (scoreGain_nonneg (Z.of_nat (length ids))
                  (combo (state (applyClear s ids (Some card) spent))) ltac:(lia)).
    lia.
  - unfold drawFromStock. destruct (negb _); [done|].
    destruct (last (stock s)); [|done].
    etrans; [|apply evaluateState_score_le]. done.
  - unfold useHold. destruct (negb _); [done|].
    destruct (last (waste s)); [|done].
    etrans; [|apply evaluateState_score_le]. done.
  - unfold toggleWrap. by destruct (bool_decide _).
  - unfold togglePowerup. by repeat case_match.
Qed.

(** The bounds a play keeps: no counter below zero, and a powerup selected
    only while in stock. *)
Definition countersOk (s : GameState) : Prop :=
  (∀ p, 0 ≤ inv_get (powerups s) p)
  ∧ 0 ≤ powerupCycle s ∧ 0 ≤ combo s ∧ 0 ≤ score s
  ∧ ∀ p, activePowerup s = Some p → 0 < inv_get (powerups s) p.

Lemma evaluateState_countersOk (x : GameState) :
  countersOk x → countersOk (evaluateState x).
Proof.
  intros (Hinv & Hcyc & Hcombo & Hscore & Hact). unfold countersOk.
  pose proof (evaluateState_score_le x).
  destruct (evaluateState_frame x) as (_ & _ & _ & _ & _ & -> & -> & -> & -> & _).
  repeat split; try done. lia.
Qed.

Lemma applyClear_countersOk (s : GameState) (ids : list nat) (card : Card)
    (spent : option Powerup) :
  countersOk s → countersOk (state (applyClear s ids (Some card) spent)).
Proof.
  intros (Hinv & Hcyc & Hcombo & Hscore & Hact).
  pose proof (scoreGain_nonneg (Z.of_nat (length ids))
                (combo s + Z.of_nat (length ids)) ltac:(lia)) as Hgain.
  unfold applyClear, grantPowerups. rewrite grantPowerups_fold by done.
  unfold countersOk. cbn [state powerups powerupCycle combo score activePowerup].
  split; [|repeat split; try lia; by intros p [=]].
  intros p. etrans; [|apply addUnits_ge].
  destruct spent as [q|]; [|done].
  pose proof (Hinv p).
  destruct q, p; cbn [inv_set inv_get inv_wild inv_bomb inv_rainbow] in *; lia.
Qed.

Lemma step_countersOk (a : Action) (s : GameState) :
  countersOk s → countersOk (step a s).
Proof.
  intros Hok. destruct a as [slotId| | |enabled|p]; cbn [step].
  - destruct (handleCardClick_cases slotId s)
      as [->|(slot & card & ids & spent & _ & _ & _ & _ & _ & ->)]; [done|].
    by apply evaluateState_countersOk, applyClear_countersOk.
  - unfold drawFromStock. destruct (negb _); [done|].
    destruct (last (stock s)); [|done].
    apply evaluateState_countersOk.
    destruct Hok as (Hinv & Hcyc & Hcombo & Hscore & Hact).
    unfold countersOk. cbn [powerups powerupCycle combo score activePowerup].
    repeat split; (done || by intros q [=]).
  - unfold useHold. destruct (negb _); [done|].
    destruct (last (waste s)); [|done].
    apply evaluateState_countersOk.
    destruct Hok as (Hinv & Hcyc & Hcombo & Hscore & Hact).
    unfold countersOk. cbn [powerups powerupCycle combo score activePowerup].
    repeat split; (done || by intros q [=]).
  - unfold toggleWrap. by destruct (bool_decide _).
  - unfold togglePowerup. destruct (negb _); [done|].
    destruct (Z.leb_spec (inv_get (powerups s) p) 0) as [Hi|Hi]; [done|].
    destruct Hok as (Hinv & Hcyc & Hcombo & Hscore & Hact).
    unfold countersOk.
    cbn [with_activePowerup powerups powerupCycle combo score activePowerup].
    do 4 (split; [done|]).
    intros q. destruct (bool_decide _); [by intros [=]|]. by intros [= <-].
Qed.

Lemma reachable_countersOk (s : GameState) : reachable s → countersOk s.
Proof.
  induction 1 as [seed h|a s _ IH]; [|by apply step_countersOk].
  pose proof (createGameState_shuffled seed h) as Hs. cbv zeta in Hs. rewrite Hs.
  clear Hs. unfold countersOk. cbn [powerups powerupCycle combo score activePowerup].
  split; [by intros []|]. repeat split; (done || by intros q [=]).
Qed.

(** X12.  Along a play from a deal the inventory counts, the rotation
    cursor, the combo and the score are never negative, and a powerup is
    selected only while a unit of it is in the inventory. *)
Theorem reachable_counters (s : GameState) :
  reachable s →
  (∀ p, 0 ≤ inv_get (powerups s) p)
  ∧ 0 ≤ powerupCycle s
  ∧ 0 ≤ combo s
  ∧ 0 ≤ score s
  ∧ (∀ p, activePowerup s = Some p → 0 < inv_get (powerups s) p).
Proof. apply reachable_countersOk. Qed.

Lemma reachable_counters_witness :
  reachable wildSelected ∧ 0 ≤ powerupCycle wildSelected.
Proof.
  split; [apply reachable_run|].
  exact (proj1 (proj2 (reachable_counters wildSelected (reachable_run _ _)))).
Defined.

(** ** The waste along a play *)








(** ** What the board enables *)

Lemma handleCardClick_plain (s : GameState) (slotId : nat) (slot : Slot) (card top : Card) :
  status s = playing → activePowerup s = None →
  tableau s !! slotId = Some slot → slot_card slot = Some card →
  isExposed slot (tableau s) = true → last (waste s) = Some top →
  isAdjacentRank (rank card) (rank top) (wrapEnabled s) = true →
  handleCardClick slotId s
  = evaluateState (state (applyClear s [slotId] (Some card) None)).
Proof.
  intros Hp Ha Hs Hc He Hl Hadj. unfold handleCardClick.
  rewrite Hp, Hs, Hc, He, Ha, Hl, Hadj.
  by rewrite (bool_decide_eq_true_2 (playing = playing)).
Qed.

Lemma cleared_changes (s : GameState) (ids : list nat) (card : Card)
    (spent : option Powerup) :
  evaluateState (state (applyClear s ids (Some card) spent)) ≠ s.
Proof.
  intros Heq. apply (f_equal waste) in Heq.
  destruct (evaluateState_frame (state (applyClear s ids (Some card) spent)))
    as (_ & _ & _ & Hw & _).
  destruct (applyClear_frame s ids card spent) as (_ & _ & _ & Hw' & _).
  rewrite Hw, Hw' in Heq. apply (f_equal length) in Heq.
  rewrite length_app in Heq. cbn [length] in Heq. lia.
Qed.

(** X14.  During a play the board enables the click on a card exactly when
    the click handler acts on it: the card is exposed and either a powerup is
    selected or the waste top is of adjacent rank. *)
Theorem isCardPlayable_handleCardClick (s : GameState) (slot : Slot) (card : Card) :
  reachable s → status s = playing → slot ∈ tableau s → slot_card slot = Some card →
  isCardPlayable (bool_decide (slot_id slot ∈ getExposedIds (tableau s))) card
    (last (waste s)) (activePowerup s) (wrapEnabled s) = true
  ↔ handleCardClick (slot_id slot) s ≠ s.
Proof.
  intros Hs Hp Hin Hc.
  pose proof (reachable_layoutShaped s Hs) as Ht.
  destruct (reachable_countersOk s Hs) as (_ & _ & _ & _ & Hact).
  apply list_elem_of_lookup in Hin as [i Hi].
  destruct (layoutShaped_lookup (tableau s) i slot Ht Hi) as [Hid _]. rewrite Hid.
  assert (i ∈ getExposedIds (tableau s) ↔ isExposed slot (tableau s) = true) as Hexp.
  { rewrite (elem_of_getExposedIds (tableau s) i Ht). split.
    - intros (slot' & Hi' & He). congruence.
    - intros He. by exists slot. }
  unfold isCardPlayable. split.
  - destruct (decide (i ∈ getExposedIds (tableau s))) as [Hyes|Hno];
      [rewrite bool_decide_eq_true_2 by done|by rewrite bool_decide_eq_false_2].
    cbn [negb]. apply Hexp in Hyes.
    destruct (activePowerup s) as [p|] eqn:Ha.
    + intros _. pose proof (Hact p eq_refl) as Hpos.
      rewrite (handleCardClick_powerup s i slot card p Hp Ha ltac:(lia) Hi Hc Hyes).
      apply cleared_changes.
    + destruct (last (waste s)) as [top|] eqn:Hl; [|discriminate].
      intros Hadj.
      rewrite (handleCardClick_plain s i slot card top Hp Ha Hi Hc Hyes Hl Hadj).
      apply cleared_changes.
  - intros Hne.
    destruct (handleCardClick_cases i s)
      as [Heq|(slot' & card' & ids & spent & _ & Hi' & Hc' & He & Hids & _)]; [done|].
    assert (slot' = slot) as -> by congruence.
    assert (card' = card) as -> by congruence.
    rewrite bool_decide_eq_true_2 by (by apply Hexp). cbn [negb].
    destruct Hids as [(_ & -> & _ & top & -> & Hadj)|(p & _ & -> & _)]; done.
Qed.

Lemma isCardPlayable_handleCardClick_witness :
  handleCardClick 8 wildSelected ≠ wildSelected.
Proof.
  assert (status wildSelected = playing) as Hp by (vm_compute; reflexivity).
  assert (mkSlot 8 1 17 (Some (mkCard "D8" 8 Suit.D)) ∈ tableau wildSelected) as Hin.
  { apply (list_elem_of_lookup_2 _ 8). vm_compute. reflexivity. }
  assert (isCardPlayable
            (bool_decide (8%nat ∈ getExposedIds (tableau wildSelected)))
            (mkCard "D8" 8 Suit.D) (last (waste wildSelected))
            (activePowerup wildSelected) (wrapEnabled wildSelected) = true) as Hplay
    by (vm_compute; reflexivity).
  exact (proj1 (isCardPlayable_handleCardClick wildSelected
                  (mkSlot 8 1 17 (Some (mkCard "D8" 8 Suit.D))) (mkCard "D8" 8 Suit.D)
                  (reachable_run _ _) Hp Hin eq_refl) Hplay).
Defined.

Lemma reachable_cards_NoDup (s : GameState) : reachable s → NoDup (cards s).
Proof.
  intros Hs. eapply NoDup_submseteq_l; [by apply reachable_cards_sub|].
  apply createDeck_NoDup.
Qed.

(** X15.  During a play the board enables the hold exactly when the hold
    changes the state: the game is on and the waste holds a card. *)
Theorem canHold_useHold (s : GameState) :
  reachable s → canHold s = true ↔ useHold s ≠ s.
Proof.
  intros Hs. unfold canHold. rewrite andb_true_iff, !bool_decide_eq_true. split.
  - intros [Hp Hlen] Heq.
    destruct (last (waste s)) as [top|] eqn:Hl; cycle 1.
    { apply last_None in Hl. rewrite Hl in Hlen. cbn [length] in Hlen. lia. }
    destruct (useHold_fields s top Hp Hl) as (Hh & _). rewrite Heq in Hh.
    pose proof (reachable_cards_NoDup s Hs) as Hnd. unfold cards in Hnd.
    apply NoDup_app in Hnd as (_ & _ & Hnd). apply NoDup_app in Hnd as (_ & _ & Hnd).
    rewrite Hh in Hnd. change (option_list (Some top)) with [top] in Hnd.
    apply NoDup_app in Hnd as (_ & Hdisj & _).
    apply (Hdisj top); [|by left]. apply last_Some in Hl as [l ->].
    apply elem_of_app. right. by left.
  - intros Hne. unfold useHold in Hne.
    destruct (decide (status s = playing)) as [Hp|Hp];
      [|by rewrite bool_decide_eq_false_2 in Hne].
    split; [done|]. destruct (waste s); [|cbn [length]; lia].
    cbn [last] in Hne. by destruct (negb _).
Qed.

Lemma canHold_useHold_witness :
  useHold (Deal (js "candy")) ≠ Deal (js "candy").
Proof.
  assert (canHold (Deal (js "candy")) = true) as Hc by (vm_compute; reflexivity).
  exact (proj1 (canHold_useHold (Deal (js "candy")) (reachable_deal (js "candy") [])) Hc).
Defined.

(** ** The multiplier and the grants *)

(** X16.  The combo multiplier lies between 1 and 3 and never decreases
    as the combo grows. *)
Theorem getComboMultiplier_monotone (c1 c2 : Z) :
  c1 ≤ c2 →
  (getComboMultiplier c1 <= getComboMultiplier c2)%Q
  ∧ (1 <= getComboMultiplier c1)%Q
  ∧ (getComboMultiplier c1 <= 3)%Q.
Proof.
  intros Hle. rewrite !getComboMultiplier_table. unfold multiplierTable.
  destruct (Z.ltb_spec c1 3), (Z.ltb_spec c1 6), (Z.ltb_spec c1 9), (Z.ltb_spec c1 12),
    (Z.ltb_spec c2 3), (Z.ltb_spec c2 6), (Z.ltb_spec c2 9), (Z.ltb_spec c2 12);
    try lia; repeat split; unfold Qle; cbn [Qnum Qden]; lia.
Qed.

Lemma getComboMultiplier_monotone_witness :
  (getComboMultiplier 2 <= getComboMultiplier 7)%Q.
Proof.
  assert (2 ≤ 7) as Hle by lia.
  exact (proj1 (getComboMultiplier_monotone 2 7 Hle)).
Defined.

(** X17.  A combo that does not grow grants nothing; with the rotation
    cursor at zero or above, a grant only ever adds to the inventory and
    moves the cursor forward. *)
Theorem grantPowerups_grows (oldCombo newCombo cycleIndex : Z) (inventory : Inventory) :
  0 ≤ cycleIndex →
  (newCombo ≤ oldCombo →
   grantPowerups oldCombo newCombo inventory cycleIndex = (inventory, cycleIndex))
  ∧ (∀ p, inv_get inventory p
          ≤ inv_get (grantPowerups oldCombo newCombo inventory cycleIndex).1 p)
  ∧ cycleIndex ≤ (grantPowerups oldCombo newCombo inventory cycleIndex).2.
Proof.
  intros Hc. split.
  - intros Hle. unfold grantPowerups. by rewrite seqZ_nil by lia.
  - unfold grantPowerups. rewrite grantPowerups_fold by done. cbn [fst snd].
    split; [intros p; apply addUnits_ge|lia].
Qed.

Lemma grantPowerups_grows_witness :
  grantPowerups 5 5 (mkInventory 1 0 2) 4 = (mkInventory 1 0 2, 4).
Proof.
  assert (0 ≤ 4) as Hc by lia. assert (5 ≤ 5) as Hle by lia.
  exact (proj1 (grantPowerups_grows 5 5 4 (mkInventory 1 0 2) Hc) Hle).
Defined.

(** ** Labels, deck and layout *)

(** X18.  The labels of the thirteen ranks are pairwise different: ace,
    jack, queen and king by their letters, the others by their numerals. *)
Theorem rankLabel_inj (a b : Z) :
  1 ≤ a ≤ 13 → 1 ≤ b ≤ 13 → rankLabel a = rankLabel b → a = b.
Proof.
  assert (forallb (λ a, forallb (λ b, implb (bool_decide (rankLabel a = rankLabel b))
                                        (a =? b))
                          (seqZ 1 13)) (seqZ 1 13) = true) as Hall
    by (vm_compute; reflexivity).
  intros Ha Hb Heq. rewrite forallb_forall in Hall.
  specialize (Hall a). rewrite <- list_elem_of_In, elem_of_seqZ in Hall.
  specialize (Hall ltac:(lia)). rewrite forallb_forall in Hall.
  specialize (Hall b). rewrite <- list_elem_of_In, elem_of_seqZ in Hall.
  specialize (Hall ltac:(lia)).
  rewrite bool_decide_eq_true_2 in Hall by done. by apply Z.eqb_eq.
Qed.

Lemma rankLabel_inj_witness :
  rankLabel 1 = "A" ∧ (rankLabel 1 = rankLabel 1 → 1 = 1).
Proof.
  split; [vm_compute; reflexivity|].
  assert (1 ≤ 1 ≤ 13) as Hr by lia.
  exact (rankLabel_inj 1 1 Hr Hr).
Defined.

(** X19.  The deck holds 52 pairwise different cards with pairwise
    different ids: one card for each of the four suits and each rank from 1
    to 13, its id the suit letter followed by the rank. *)
Theorem createDeck_spec (c : Card) :
  length createDeck = 52%nat
  ∧ NoDup createDeck
  ∧ NoDup (card_id <$> createDeck)
  ∧ (c ∈ createDeck
     ↔ 1 ≤ rank c ≤ 13 ∧ card_id c = suitLetter (suit c) +:+ pretty (rank c)).
Proof.
  split; [apply createDeck_length|]. split; [apply createDeck_NoDup|].
  split.
  { apply (bool_decide_unpack (NoDup (card_id <$> createDeck))). vm_compute. exact I. }
  unfold createDeck. rewrite list_elem_of_bind. split.
  - intros (s & Hc & _). apply list_elem_of_bind in Hc as (r & Hc & Hr).
    apply list_elem_of_singleton in Hc as ->. apply elem_of_seqZ in Hr.
    cbn [rank card_id suit]. split; [lia|done].
  - intros [Hr Hid]. exists (suit c). split.
    + apply list_elem_of_bind. exists (rank c). split.
      * apply list_elem_of_singleton. destruct c. cbn [rank card_id suit] in *. by subst.
      * apply elem_of_seqZ. lia.
    + destruct (suit c); repeat constructor.
Qed.

(** The checks on slot [i] of a graph given by its covering slots and its
    neighbours. *)
Definition layoutCheck (par adj : nat → list nat) (i : nat) : bool :=
  bool_decide (Forall (λ p, p < i)%nat (par i))
  && bool_decide (length (par i) ≤ 2)%nat
  && bool_decide (Forall (λ n, n ∈ par i ∨ i ∈ par n) (adj i))
  && bool_decide (Forall (λ p, p ∈ adj i) (par i))
  && bool_decide (Forall (λ n, i ∈ par n → n ∈ adj i) (seq 0 28))
  && bool_decide (NoDup (adj i))
  && bool_decide (Forall (λ n, (n < 28)%nat ∧ i ∈ adj n) (adj i)).

Lemma layoutCheck_sound (par adj : nat → list nat) (i : nat) :
  (i < 28)%nat → forallb (layoutCheck par adj) (seq 0 28) = true →
  (∀ p, p ∈ par i → (p < i)%nat)
  ∧ (length (par i) ≤ 2)%nat
  ∧ (∀ n, n ∈ adj i → n ∈ par i ∨ i ∈ par n)
  ∧ (∀ p, p ∈ par i → p ∈ adj i)
  ∧ (∀ n, (n < 28)%nat → i ∈ par n → n ∈ adj i)
  ∧ NoDup (adj i)
  ∧ (∀ n, n ∈ adj i → (n < 28)%nat ∧ i ∈ adj n).
Proof.
  intros Hi Hall. rewrite forallb_forall in Hall.
  specialize (Hall i). rewrite <- list_elem_of_In, elem_of_seq in Hall.
  specialize (Hall ltac:(lia)). unfold layoutCheck in Hall.
  rewrite !andb_true_iff, !bool_decide_eq_true, !Forall_forall in Hall.
  destruct Hall as ((((((H1 & H2) & H3) & H4) & H5) & H6) & H7).
  repeat split; try done.
  - intros n Hn. apply H5. apply elem_of_seq. lia.
  - by apply H7.
  - by apply H7.
Qed.

Lemma layoutCheck_all : forallb (layoutCheck parentsOf adjacentTo) (seq 0 28) = true.
Proof. vm_compute. reflexivity. Qed.

(** X20.  The graph of the layout: the slots covering a slot have smaller
    ids and are at most two; the neighbours of a slot are the slots that
    cover it and the slots it covers, each listed once; and being neighbours is
    mutual. *)
Theorem layout_graph (i : nat) :
  (i < 28)%nat →
  (∀ p, p ∈ parentsOf i → (p < i)%nat)
  ∧ (length (parentsOf i) ≤ 2)%nat
  ∧ (∀ n, n ∈ adjacentTo i → n ∈ parentsOf i ∨ i ∈ parentsOf n)
  ∧ (∀ p, p ∈ parentsOf i → p ∈ adjacentTo i)
  ∧ (∀ n, (n < 28)%nat → i ∈ parentsOf n → n ∈ adjacentTo i)
  ∧ NoDup (adjacentTo i)
  ∧ (∀ n, n ∈ adjacentTo i → (n < 28)%nat ∧ i ∈ adjacentTo n).
Proof.
  intros Hi. exact (layoutCheck_sound parentsOf adjacentTo i Hi layoutCheck_all).
Qed.

Lemma layout_graph_witness : parentsOf 10 = [3; 4]%nat ∧ (length (parentsOf 10) ≤ 2)%nat.
Proof.
  split; [vm_compute; reflexivity|].
  assert (10 < 28)%nat as Hi by lia.
  exact (proj1 (proj2 (layout_graph 10 Hi))).
Defined.

(** ** Clearing and exposure *)

Lemma cardAt_clearIds_None (ids : list nat) (t : list Slot) (i : nat) :
  cardAt t i = None → cardAt (clearIds ids t) i = None.
Proof.
  unfold cardAt, clearIds. rewrite list_lookup_fmap.
  destruct (t !! i) as [slot|]; [|done].
  cbn [fmap option_fmap option_map mbind option_bind].
  by destruct (decide (slot_id slot ∈ ids)).
Qed.

(** X21.  Clearing never covers a card: a slot that is exposed and not
    among the cleared ones is still exposed afterwards, at its place in the
    tableau. *)
Theorem clearIds_keeps_exposed (ids : list nat) (t : list Slot) (i : nat) (slot : Slot) :
  t !! i = Some slot → isExposed slot t = true → slot_id slot ∉ ids →
  clearIds ids t !! i = Some slot
  ∧ isExposed slot (clearIds ids t) = true.
Proof.
  intros Hi He Hnin. split; [by apply clearIds_lookup_kept|].
  apply isExposed_spec in He as [Hc Hpar]. apply isExposed_spec.
  split; [done|]. intros p Hp. by apply cardAt_clearIds_None, Hpar.
Qed.

Lemma clearIds_keeps_exposed_witness :
  isExposed (mkSlot 0 0 4 (Some (mkCard "S2" 2 Suit.S)))
    (clearIds [1; 2]%nat (tableau (Deal (js "candy")))) = true.
Proof.
  destruct Deal_candy_peak as [Hi He].
  assert (slot_id (mkSlot 0 0 4 (Some (mkCard "S2" 2 Suit.S))) ∉ [1; 2]%nat) as Hnin.
  { cbn [slot_id]. rewrite !not_elem_of_cons. repeat split; try lia. apply not_elem_of_nil. }
  exact (proj2 (clearIds_keeps_exposed [1; 2]%nat (tableau (Deal (js "candy"))) 0
                  (mkSlot 0 0 4 (Some (mkCard "S2" 2 Suit.S))) Hi He Hnin)).
Defined.
